(** * go-ksk: the calendar API gateway (main.go)

    A shallow embedding of the read-through caching gateway of [main.go]:
    the process-wide [cache] map guarded by [cacheMutex], the handler
    [serveCached] (lookup, freshness check, fetch on miss, store, respond),
    the by-id handler [eventByIDHandler] with its identifier pattern
    [eventIDRegex], and the wrappers [proxyStatic] and [withCORS].

    Conventions of the embedding.
    - A Go [string] is a [string] (a sequence of 8-bit characters), a
      [[]byte] is a [list byte].
    - A [time.Time] is the integer count of nanoseconds of the instant, a
      [time.Duration] the integer count of nanoseconds it lasts.
    - The handlers run in a state monad over the shared store.  The clock
      and the upstream origin are outside the program: the n-th reading of
      [time.Now()] and the result of the n-th [httpClient.Get] are given by
      two oracles, and the state counts how many of each were consumed.
    - Every lock operation, clock reading, transport call, body read and
      write to the client is appended to a trace, in program order. *)

From Stdlib Require Import ZArith Ascii String.
From Stdlib.Strings Require Import Byte.
From stdpp Require Import base option list gmap strings.

Local Open Scope Z_scope.

(** ** Bytes and text *)

Definition bytes : Type := list byte.

(** The conversion [[]byte(s)] of a Go string. *)
Definition bytesOf (s : string) : bytes := list_byte_of_string s.

(** The slice expression [s[n:]]: the text after the first [n] bytes.  Go
    panics when [n] exceeds [len(s)]; that is [None] here. *)
Fixpoint sliceFrom (s : string) (n : nat) {struct n} : option string :=
  match n with
  | O => Some s
  | S n' =>
      match s with
      | EmptyString => None
      | String _ s' => sliceFrom s' n'
      end
  end.

(** ** Time *)

Definition Time : Type := Z.
Definition Duration : Type := Z.

Definition Nanosecond : Duration := 1.
Definition Second : Duration := 1000000000 * Nanosecond.
Definition Minute : Duration := 60 * Second.

(** [t.Before(u)] and [t.Add(d)]. *)
Definition Before (t u : Time) : bool := t <? u.
Definition Add (t : Time) (d : Duration) : Time := t + d.

(** ** Regular expressions

    The fragment of Go's [regexp] syntax the gateway uses: character
    ranges, concatenation, alternation and repetition, with the two text
    anchors kept as flags of the compiled pattern.  Matching is by
    derivatives. *)

Inductive regex : Type :=
  | Void : regex
  | Eps : regex
  | Class (lo hi : ascii) : regex
  | Cat (r1 r2 : regex) : regex
  | Alt (r1 r2 : regex) : regex
  | Star (r : regex) : regex.

(** [r+] *)
Definition Plus (r : regex) : regex := Cat r (Star r).

Definition inClass (lo hi c : ascii) : bool :=
  (nat_of_ascii lo <=? nat_of_ascii c)%nat && (nat_of_ascii c <=? nat_of_ascii hi)%nat.

Fixpoint nullable (r : regex) : bool :=
  match r with
  | Void => false
  | Eps => true
  | Class _ _ => false
  | Cat r1 r2 => nullable r1 && nullable r2
  | Alt r1 r2 => nullable r1 || nullable r2
  | Star _ => true
  end.

Fixpoint deriv (c : ascii) (r : regex) : regex :=
  match r with
  | Void => Void
  | Eps => Void
  | Class lo hi => if inClass lo hi c then Eps else Void
  | Cat r1 r2 =>
      if nullable r1
      then Alt (Cat (deriv c r1) r2) (deriv c r2)
      else Cat (deriv c r1) r2
  | Alt r1 r2 => Alt (deriv c r1) (deriv c r2)
  | Star r1 => Cat (deriv c r1) (Star r1)
  end.

(** Does [r] match the whole of [s]? *)
Fixpoint fullMatch (r : regex) (s : string) : bool :=
  match s with
  | EmptyString => nullable r
  | String c s' => fullMatch (deriv c r) s'
  end.

(** A compiled pattern: [^] and [$] (without the multi-line flag, [$]
    matches at the end of the text only) and the expression between them. *)
Record Regexp : Type := MkRegexp {
  beginText : bool;
  expr : regex;
  endText : bool
}.

Definition anyByte : regex := Class zero (ascii_of_nat 255).

(** [re.MatchString(s)]: some substring of [s] matches, starting at the
    beginning of [s] under [^] and ending at its end under [$]. *)
Definition MatchString (re : Regexp) (s : string) : bool :=
  let r1 := if beginText re then expr re else Cat (Star anyByte) (expr re) in
  let r2 := if endText re then r1 else Cat r1 (Star anyByte) in
  fullMatch r2 s.

(** [regexp.MustCompile(`^[0-9]+$`)] *)
Definition eventIDRegex : Regexp :=
  {| beginText := true; expr := Plus (Class "0" "9"); endText := true |}.

(** The language of an expression, as a relation. *)
Inductive lang : regex -> string -> Prop :=
  | lang_eps : lang Eps EmptyString
  | lang_class lo hi c :
      inClass lo hi c = true -> lang (Class lo hi) (String c EmptyString)
  | lang_cat r1 r2 s1 s2 :
      lang r1 s1 -> lang r2 s2 -> lang (Cat r1 r2) (s1 +:+ s2)
  | lang_alt_l r1 r2 s : lang r1 s -> lang (Alt r1 r2) s
  | lang_alt_r r1 r2 s : lang r2 s -> lang (Alt r1 r2) s
  | lang_star_nil r : lang (Star r) EmptyString
  | lang_star_cons r c s1 s2 :
      lang r (String c s1) -> lang (Star r) s2 ->
      lang (Star r) (String c s1 +:+ s2).

(** The wording of the interface: one or more ASCII digits. *)
Definition isDigit (c : ascii) : bool :=
  (48 <=? nat_of_ascii c)%nat && (nat_of_ascii c <=? 57)%nat.

Fixpoint allDigits (s : string) : bool :=
  match s with
  | EmptyString => true
  | String c s' => isDigit c && allDigits s'
  end.

Definition oneOrMoreDigits (s : string) : bool :=
  match s with
  | EmptyString => false
  | String _ _ => allDigits s
  end.

(** ** Constants of the gateway and of [net/http] *)

Definition baseUpstream : string :=
  "https://calman02.barrierefrei.berlin/calendar/api/v1".

Definition cacheTTL : Duration := 5 * Minute.

Definition StatusOK : Z := 200.
Definition StatusNoContent : Z := 204.
Definition StatusBadRequest : Z := 400.
Definition StatusMethodNotAllowed : Z := 405.
Definition StatusBadGateway : Z := 502.

Definition MethodGet : string := "GET".
Definition MethodOptions : string := "OPTIONS".

(** ** The cache *)

Record cacheEntry : Type := MkEntry {
  data : bytes;
  until : Time
}.

(** The zero [time.Time] (January 1 of year 1, UTC) and the zero
    [cacheEntry], which a map read yields for an absent key. *)
Definition zeroTime : Time := -62135596800 * Second.
Definition zeroEntry : cacheEntry := {| data := []; until := zeroTime |}.

(** ** The transport

    [httpClient.Get] yields a response or an error.  A response carries
    its status code and a body still to be read: the bytes that reading
    delivers, and whether the read then ends in an error instead of EOF. *)

Record Reader : Type := MkReader {
  content : bytes;
  broken : bool
}.

Record Response : Type := MkResponse {
  StatusCode : Z;
  Body : Reader
}.

Inductive GetResult : Type :=
  | GetOk (resp : Response)
  | GetErr.

(** ** The response writer

    [header] is the map [w.Header()]; [Set] stores a single value under
    the key (all keys of the gateway are in canonical form already).  The
    status line and a snapshot of the header go out with the first
    [WriteHeader], explicit or implied by the first [Write]; later calls
    of [WriteHeader] are ignored. *)

Record ResponseWriter : Type := MkWriter {
  header : gmap string (list string);
  wrote : option (Z * gmap string (list string));
  output : bytes
}.

Definition newWriter : ResponseWriter :=
  {| header := empty; wrote := None; output := [] |}.

Definition Header_Set (w : ResponseWriter) (k v : string) : ResponseWriter :=
  {| header := <[k := [v]]> (header w); wrote := wrote w; output := output w |}.

Definition putHeader (w : ResponseWriter) (code : Z) : ResponseWriter :=
  match wrote w with
  | Some _ => w
  | None => {| header := header w; wrote := Some (code, header w); output := output w |}
  end.

Definition putBody (w : ResponseWriter) (p : bytes) : ResponseWriter :=
  let w1 := putHeader w StatusOK in
  {| header := header w1; wrote := wrote w1; output := output w1 ++ p |}.

(** What the client has received: status code, header, body. *)
Definition sentStatus (w : ResponseWriter) : option Z := fst <$> wrote w.

Definition sentHeader (w : ResponseWriter) (k : string) : option (list string) :=
  match wrote w with
  | Some (_, h) => h !! k
  | None => None
  end.

Record Request : Type := MkRequest {
  Method : string;
  Path : string
}.

(** ** The state and its trace *)

Inductive Event : Type :=
  | EvRLock
  | EvRUnlock
  | EvLock
  | EvUnlock
  | EvNow (t : Time)
  | EvGet (url : string)
  | EvReadAll (failed : bool)
  | EvClose
  | EvWriteHeader (code : Z)
  | EvWrite (p : bytes).

Record State : Type := MkState {
  cache : gmap string cacheEntry;
  ticks : nat;
  calls : nat;
  trace : list Event
}.

Definition M (A : Type) : Type := State -> A * State.

#[global] Instance M_ret : MRet M := fun A (a : A) (s : State) => (a, s).

#[global] Instance M_bind : MBind M :=
  fun A B (f : A -> M B) (m : M A) (s : State) => f (m s).1 (m s).2.

Definition emit (e : Event) : M unit := fun s =>
  (tt, {| cache := cache s; ticks := ticks s; calls := calls s;
          trace := trace s ++ [e] |}).

(** [cacheMutex], a [sync.RWMutex]. *)
Definition RLock : M unit := emit EvRLock.
Definition RUnlock : M unit := emit EvRUnlock.
Definition Lock : M unit := emit EvLock.
Definition Unlock : M unit := emit EvUnlock.

(** [entry, ok := cache[key]] *)
Definition mapGet (key : string) : M (cacheEntry * bool) := fun s =>
  (match cache s !! key with
   | Some e => (e, true)
   | None => (zeroEntry, false)
   end, s).

(** [cache[key] = e] *)
Definition mapSet (key : string) (e : cacheEntry) : M unit := fun s =>
  (tt, {| cache := <[key := e]> (cache s); ticks := ticks s; calls := calls s;
          trace := trace s |}).

(** [w.WriteHeader(code)] and [w.Write(p)], with the write to the client
    recorded. *)
Definition WriteHeader (w : ResponseWriter) (code : Z) : M ResponseWriter :=
  emit (EvWriteHeader code) ;; mret (putHeader w code).

Definition Write (w : ResponseWriter) (p : bytes) : M ResponseWriter :=
  emit (EvWrite p) ;; mret (putBody w p).

Definition newline : string := String (ascii_of_nat 10) EmptyString.

(** [http.Error(w, msg, code)] (Go 1.22): plain-text content type, the
    status, then the message and a newline. *)
Definition http_Error (w : ResponseWriter) (msg : string) (code : Z)
  : M ResponseWriter :=
  let w1 := Header_Set w "Content-Type" "text/plain; charset=utf-8" in
  let w2 := Header_Set w1 "X-Content-Type-Options" "nosniff" in
  w3 ← WriteHeader w2 code;
  Write w3 (bytesOf (msg +:+ newline)).

(** [io.ReadAll(r)]: the bytes read and whether an error ended the read. *)
Definition io_ReadAll (r : Reader) : M (bytes * bool) :=
  emit (EvReadAll (broken r)) ;; mret (content r, broken r).

(** [resp.Body.Close()] *)
Definition Body_Close : M unit := emit EvClose.

Section Gateway.

(** The outside world: [clock n] is the n-th reading of [time.Now()] and
    [origin n url] the outcome of the n-th call of [httpClient.Get], made
    for [url]. *)
Variable clock : nat -> Time.
Variable origin : nat -> string -> GetResult.

Definition time_Now : M Time := fun s =>
  (clock (ticks s),
   {| cache := cache s; ticks := S (ticks s); calls := calls s;
      trace := trace s ++ [EvNow (clock (ticks s))] |}).

Definition httpClient_Get (url : string) : M GetResult := fun s =>
  (origin (calls s) url,
   {| cache := cache s; ticks := ticks s; calls := S (calls s);
      trace := trace s ++ [EvGet url] |}).

(** Lines 116-121 of [serveCached], with the duration as a parameter:
    the entry is built from [body] and a fresh clock reading and put
    under [key], all under the write lock. *)
Definition store (ttl : Duration) (key : string) (payload : bytes) : M unit :=
  Lock ;;
  now ← time_Now;
  mapSet key {| data := payload; until := Add now ttl |} ;;
  Unlock.

(** Lines 98-125 of [serveCached]: the fetch on a miss.  The deferred
    [resp.Body.Close()] runs on every path that got a response. *)
Definition fetch (w : ResponseWriter) (upstream : string) : M ResponseWriter :=
  r ← httpClient_Get upstream;
  match r with
  | GetErr => http_Error w "Upstream unavailable" StatusBadGateway
  | GetOk resp =>
      w' ← (if negb (StatusCode resp =? StatusOK)
            then http_Error w "Upstream error" StatusBadGateway
            else
              '(body, failed) ← io_ReadAll (Body resp);
              if (failed : bool)
              then http_Error w "Failed to read upstream response" StatusBadGateway
              else
                store cacheTTL upstream body ;;
                let w1 := Header_Set w "Content-Type" "application/json" in
                let w2 := Header_Set w1 "X-Cache" "MISS" in
                Write w2 body);
      Body_Close ;;
      mret w'
  end.

Definition serveCached (w : ResponseWriter) (upstream : string) : M ResponseWriter :=
  RLock ;;
  '(entry, ok) ← mapGet upstream;
  hit ← (if (ok : bool)
         then now ← time_Now; mret (Before now (until entry))
         else mret false);
  if (hit : bool)
  then
    let w1 := Header_Set w "Content-Type" "application/json" in
    let w2 := Header_Set w1 "X-Cache" "HIT" in
    w3 ← Write w2 (data entry);
    RUnlock ;;
    mret w3
  else
    RUnlock ;;
    fetch w upstream.

(** A handler returns the response writer as it leaves it, or [None]
    when it panics. *)
Definition Handler : Type := ResponseWriter -> Request -> M (option ResponseWriter).

Definition returned (m : M ResponseWriter) : M (option ResponseWriter) :=
  w ← m; mret (Some w).

Definition proxyStatic (path : string) : Handler :=
  let upstream := baseUpstream +:+ path in
  fun w r =>
    if negb (String.eqb (Method r) MethodGet)
    then returned (http_Error w "Method not allowed" StatusMethodNotAllowed)
    else returned (serveCached w upstream).

Definition eventPrefix : string := "/api/calendar/event/".

Definition eventByIDHandler : Handler := fun w r =>
  if negb (String.eqb (Method r) MethodGet)
  then returned (http_Error w "Method not allowed" StatusMethodNotAllowed)
  else
    match sliceFrom (Path r) (String.length eventPrefix) with
    | None => mret None
    | Some id =>
        if negb (MatchString eventIDRegex id)
        then returned (http_Error w "Invalid event id" StatusBadRequest)
        else
          let upstream := baseUpstream +:+ "/event/" +:+ id in
          returned (serveCached w upstream)
    end.

Definition withCORS (next : Handler) : Handler := fun w r =>
  let w1 := Header_Set w "Access-Control-Allow-Origin" "*" in
  let w2 := Header_Set w1 "Access-Control-Allow-Methods" "GET, OPTIONS" in
  let w3 := Header_Set w2 "Access-Control-Allow-Headers" "Content-Type" in
  if String.eqb (Method r) MethodOptions
  then returned (WriteHeader w3 StatusNoContent)
  else next w3 r.

End Gateway.

(** ** Outcomes of a request, in the vocabulary of the interface *)

Inductive Source : Type := HIT | MISS.

Definition sourceText (src : Source) : string :=
  match src with
  | HIT => "HIT"
  | MISS => "MISS"
  end.

(** The failures of the fetch path, and the text [serveCached] gives
    [http.Error] for each. *)
Inductive ErrKind : Type :=
  | UpstreamUnavailable
  | UpstreamError
  | UpstreamReadFailure.

Definition errorText (k : ErrKind) : string :=
  match k with
  | UpstreamUnavailable => "Upstream unavailable"
  | UpstreamError => "Upstream error"
  | UpstreamReadFailure => "Failed to read upstream response"
  end.

(** The response writer [w] after a JSON answer marked [src], and after a
    failure answer with status [code] and text [msg]. *)
Definition answered (w : ResponseWriter) (src : Source) (p : bytes) : ResponseWriter :=
  putBody
    (Header_Set (Header_Set w "Content-Type" "application/json")
                "X-Cache" (sourceText src))
    p.

Definition refused (w : ResponseWriter) (msg : string) (code : Z) : ResponseWriter :=
  putBody
    (putHeader
       (Header_Set (Header_Set w "Content-Type" "text/plain; charset=utf-8")
                   "X-Content-Type-Options" "nosniff")
       code)
    (bytesOf (msg +:+ newline)).

Definition failedWith (w : ResponseWriter) (k : ErrKind) : ResponseWriter :=
  refused w (errorText k) StatusBadGateway.

(** The freshness test of [serveCached] on the state it starts in: an
    entry is present and the next clock reading is before its [until]. *)
Definition fresh (clock : nat -> Time) (s : State) (key : string) : bool :=
  match cache s !! key with
  | Some e => Before (clock (ticks s)) (until e)
  | None => false
  end.

(** The index of the clock reading that [store] takes when [serveCached]
    starts in [s]: the freshness test consumed one reading if an entry was
    present. *)
Definition storeTick (s : State) (key : string) : nat :=
  match cache s !! key with
  | Some _ => S (ticks s)
  | None => ticks s
  end.

(** What the n-th transport call delivers for [url]: a failure kind, or
    the body of a complete response with status 200. *)
Definition delivery (origin : nat -> string -> GetResult) (n : nat) (url : string)
  : ErrKind + bytes :=
  match origin n url with
  | GetErr => inl UpstreamUnavailable
  | GetOk resp =>
      if negb (StatusCode resp =? StatusOK) then inl UpstreamError
      else if broken (Body resp) then inl UpstreamReadFailure
      else inr (content (Body resp))
  end.

(** ** Locks and I/O along a trace *)

Definition isTransport (e : Event) : bool :=
  match e with
  | EvGet _ | EvReadAll _ | EvClose => true
  | _ => false
  end.

Definition isClientWrite (e : Event) : bool :=
  match e with
  | EvWriteHeader _ | EvWrite _ => true
  | _ => false
  end.

(** Does an event selected by [sel] occur in [tr] while the goroutine
    holds [cacheMutex]?  [held] counts the locks held on entry. *)
Fixpoint underLock (sel : Event -> bool) (held : nat) (tr : list Event) : bool :=
  match tr with
  | [] => false
  | e :: tr' =>
      match e with
      | EvRLock | EvLock => underLock sel (S held) tr'
      | EvRUnlock | EvUnlock => underLock sel (Nat.pred held) tr'
      | _ => (sel e && (0 <? held)%nat) || underLock sel held tr'
      end
  end.

(** The locks held after [tr]. *)
Fixpoint heldAfter (held : nat) (tr : list Event) : nat :=
  match tr with
  | [] => held
  | e :: tr' =>
      match e with
      | EvRLock | EvLock => heldAfter (S held) tr'
      | EvRUnlock | EvUnlock => heldAfter (Nat.pred held) tr'
      | _ => heldAfter held tr'
      end
  end.

(** Lines 87-96 of [serveCached], the read path: the map read and the
    freshness test under the read lock and, on a hit, the answer.  It
    yields what the map read gave and, on a hit, the writer as answered.
    [serveCached] is this path followed, on a miss, by [fetch]. *)
Definition readPath (clock : nat -> Time) (w : ResponseWriter) (upstream : string)
  : M ((cacheEntry * bool) * option ResponseWriter) :=
  RLock ;;
  '(entry, ok) ← mapGet upstream;
  hit ← (if (ok : bool)
         then now ← time_Now clock; mret (Before now (until entry))
         else mret false);
  if (hit : bool)
  then
    let w1 := Header_Set w "Content-Type" "application/json" in
    let w2 := Header_Set w1 "X-Cache" "HIT" in
    w3 ← Write w2 (data entry);
    RUnlock ;;
    mret ((entry, ok), Some w3)
  else
    RUnlock ;;
    mret ((entry, ok), None).

(** The read path run [n] times in a row for [key], with what the map
    read gave each time, in order. *)
Fixpoint readPaths (clock : nat -> Time) (w : ResponseWriter) (key : string) (n : nat)
  : M (list (cacheEntry * bool)) :=
  match n with
  | O => mret []
  | S n' =>
      r ← readPath clock w key;
      rs ← readPaths clock w key n';
      mret (r.1 :: rs)
  end.

(** The events that a run from [s] to [s'] added to the trace. *)
Definition since (s s' : State) : list Event :=
  drop (length (trace s)) (trace s').

(** The events of each way out of the fetch path, after the transport
    call: the writes of [http.Error], the body read, the deferred close. *)
Definition refusal (msg : string) (code : Z) : list Event :=
  [EvWriteHeader code; EvWrite (bytesOf (msg +:+ newline))].

Definition failureTrace (k : ErrKind) : list Event :=
  match k with
  | UpstreamUnavailable => refusal (errorText k) StatusBadGateway
  | UpstreamError => refusal (errorText k) StatusBadGateway ++ [EvClose]
  | UpstreamReadFailure => EvReadAll true :: refusal (errorText k) StatusBadGateway ++ [EvClose]
  end.

(** The clock reading that the freshness test records, if it takes one. *)
Definition probe (clock : nat -> Time) (s : State) (key : string) : list Event :=
  match cache s !! key with
  | Some _ => [EvNow (clock (ticks s))]
  | None => []
  end.

(** ** A concrete world

    The clock reads every two minutes from instant 0 on.  The origin
    answers the successive calls with: the empty event list; a transport
    failure; status 500; a body that breaks off; status 204; a genre list;
    and the empty event list from then on. *)

Definition quote : string := String (ascii_of_nat 34) EmptyString.

(** The JSON text of the empty event list. *)
Definition noEvents : bytes :=
  bytesOf ("{" +:+ quote +:+ "events" +:+ quote +:+ ":[]}").

Definition genres : bytes := bytesOf "[1,2]".

Definition demoClock (n : nat) : Time := Z.of_nat n * (2 * Minute).

Definition complete (code : Z) (p : bytes) : GetResult :=
  GetOk {| StatusCode := code; Body := {| content := p; broken := false |} |}.

Definition demoOrigin (n : nat) (url : string) : GetResult :=
  match n with
  | 0%nat => complete 200 noEvents
  | 1%nat => GetErr
  | 2%nat => complete 500 (bytesOf "oops")
  | 3%nat => GetOk {| StatusCode := 200;
                      Body := {| content := bytesOf "[1,"; broken := true |} |}
  | 4%nat => complete 204 []
  | 5%nat => complete 200 genres
  | _ => complete 200 noEvents
  end.

Definition startState : State :=
  {| cache := empty; ticks := 0; calls := 0; trace := [] |}.

(** A state whose [n]-th transport call is the next one. *)
Definition atCall (n : nat) : State :=
  {| cache := empty; ticks := 0; calls := n; trace := [] |}.

(** A state holding an entry for [key] that expires at [t]. *)
Definition holding (key : string) (p : bytes) (t : Time) (tick call : nat) : State :=
  {| cache := {[ key := {| data := p; until := t |} ]};
     ticks := tick; calls := call; trace := [] |}.

Definition eventsURL : string := baseUpstream +:+ "/events?show_past=true".

Definition getRequest (path : string) : Request :=
  {| Method := MethodGet; Path := path |}.

(** ** Keys, request sequences and the cache invariant *)

Definition genresURL : string := baseUpstream +:+ "/genres".

(** The key that [eventByIDHandler] builds on line 81. *)
Definition eventURL (id : string) : string := baseUpstream +:+ "/event/" +:+ id.

(** The requests for [keys], served one after the other, each on a
    response writer of its own. *)
Fixpoint serveAll (clock : nat -> Time) (origin : nat -> string -> GetResult)
    (keys : list string) : M (list ResponseWriter) :=
  match keys with
  | [] => mret []
  | u :: rest =>
      w ← serveCached clock origin newWriter u;
      ws ← serveAll clock origin rest;
      mret (w :: ws)
  end.

(** Every entry of the cache holds a body that an earlier transport call
    delivered for its key, complete and with status 200, and expires
    [cacheTTL] after an earlier clock reading. *)
Definition verified (clock : nat -> Time) (origin : nat -> string -> GetResult)
    (s : State) : Prop :=
  forall key e, cache s !! key = Some e ->
    exists n m, (n < calls s)%nat /\ (m < ticks s)%nat /\
                delivery origin n key = inr (data e) /\
                until e = clock m + cacheTTL.

(** The three headers that [withCORS] sets, as the client receives them. *)
Definition corsSent (w : ResponseWriter) : Prop :=
  sentHeader w "Access-Control-Allow-Origin" = Some ["*"] /\
  sentHeader w "Access-Control-Allow-Methods" = Some ["GET, OPTIONS"] /\
  sentHeader w "Access-Control-Allow-Headers" = Some ["Content-Type"].

(** The writer that [withCORS] hands on (lines 130-132). *)
Definition withCORSHeaders (w : ResponseWriter) : ResponseWriter :=
  Header_Set
    (Header_Set (Header_Set w "Access-Control-Allow-Origin" "*")
                "Access-Control-Allow-Methods" "GET, OPTIONS")
    "Access-Control-Allow-Headers" "Content-Type".

(** What the client can tell from a response: it was served from the
    cache, and it is one of the answers of [serveCached] (status 200
    marked HIT or MISS, or status 502 without the mark). *)
Definition servedFromCache (w : ResponseWriter) : bool :=
  bool_decide (sentHeader w "X-Cache" = Some ["HIT"]).

Definition wellAnswered (w : ResponseWriter) : Prop :=
  (sentStatus w = Some StatusOK /\
   (sentHeader w "X-Cache" = Some ["HIT"] \/ sentHeader w "X-Cache" = Some ["MISS"])) \/
  (sentStatus w = Some StatusBadGateway /\ sentHeader w "X-Cache" = None).

(** * Theorems *)

(** ** The identifier pattern *)

Lemma append_empty_inv (s1 s2 : string) :
  s1 +:+ s2 = EmptyString -> s1 = EmptyString /\ s2 = EmptyString.
Proof. destruct s1; simpl; [tauto | discriminate]. Qed.

Lemma nullable_lang (r : regex) : nullable r = true <-> lang r EmptyString.
Proof.
  split.
  - induction r; simpl; intros H; try discriminate.
    + constructor.
    + apply andb_true_iff in H as [H1 H2].
      change EmptyString with (EmptyString +:+ EmptyString).
      constructor; auto.
    + apply orb_true_iff in H as [H | H]; [apply lang_alt_l | apply lang_alt_r]; auto.
    + constructor.
  - intros H. remember EmptyString as s eqn:Hs.
    induction H; simpl; try discriminate; auto.
    + apply append_empty_inv in Hs as [-> ->].
      rewrite IHlang1, IHlang2; auto.
    + rewrite IHlang; auto.
    + rewrite IHlang, orb_true_r; auto.
Qed.

Lemma lang_cat_cons (r1 r2 : regex) (c : ascii) (s : string) :
  lang (Cat r1 r2) (String c s) ->
  (lang r1 EmptyString /\ lang r2 (String c s)) \/
  (exists s1 s2, s = s1 +:+ s2 /\ lang r1 (String c s1) /\ lang r2 s2).
Proof.
  intros H. remember (Cat r1 r2) as r eqn:Hr. remember (String c s) as t eqn:Ht.
  destruct H as [| | q1 q2 s1 s2 H1 H2 | | | |]; try discriminate.
  injection Hr as -> ->.
  destruct s1 as [| c1 s1]; simpl in Ht.
  - left. subst. auto.
  - right. injection Ht as -> <-. eauto.
Qed.

Lemma lang_star_cons_inv (r : regex) (c : ascii) (s : string) :
  lang (Star r) (String c s) ->
  exists s1 s2, s = s1 +:+ s2 /\ lang r (String c s1) /\ lang (Star r) s2.
Proof.
  intros H. remember (Star r) as q eqn:Hq. remember (String c s) as t eqn:Ht.
  destruct H as [| | | | | | q1 c1 s1 s2 H1 H2]; try discriminate.
  injection Hq as ->. simpl in Ht. injection Ht as -> <-. eauto.
Qed.

Lemma deriv_lang (r : regex) (c : ascii) (s : string) :
  lang (deriv c r) s <-> lang r (String c s).
Proof.
  revert s. induction r as [| | lo hi | r1 IH1 r2 IH2 | r1 IH1 r2 IH2 | r IH];
    intros s; simpl.
  - split; intros H; inversion H.
  - split; intros H; inversion H.
  - destruct (inClass lo hi c) eqn:Hc; split; intros H; inversion H; subst.
    + constructor; auto.
    + constructor.
    + congruence.
  - destruct (nullable r1) eqn:Hn.
    + split; intros H.
      * inversion H as [| | | ? ? ? H1 | ? ? ? H1 | |]; subst.
        -- inversion H1; subst.
           change (lang (Cat r1 r2) (String c s1 +:+ s2)).
           constructor; [apply IH1 |]; auto.
        -- change (lang (Cat r1 r2) (EmptyString +:+ String c s)).
           constructor; [apply nullable_lang | apply IH2]; auto.
      * apply lang_cat_cons in H as [[_ H2] | (s1 & s2 & -> & H1 & H2)].
        -- apply lang_alt_r, IH2; auto.
        -- apply lang_alt_l. constructor; [apply IH1 |]; auto.
    + split; intros H.
      * inversion H; subst.
        change (lang (Cat r1 r2) (String c s1 +:+ s2)).
        constructor; [apply IH1 |]; auto.
      * apply lang_cat_cons in H as [[H1 _] | (s1 & s2 & -> & H1 & H2)].
        -- apply nullable_lang in H1. congruence.
        -- constructor; [apply IH1 |]; auto.
  - split; intros H.
    + inversion H; subst; [apply lang_alt_l, IH1 | apply lang_alt_r, IH2]; auto.
    + inversion H; subst; [apply lang_alt_l, IH1 | apply lang_alt_r, IH2]; auto.
  - split; intros H.
    + inversion H; subst.
      change (lang (Star r) (String c s1 +:+ s2)).
      constructor; [apply IH |]; auto.
    + apply lang_star_cons_inv in H as (s1 & s2 & -> & H1 & H2).
      constructor; [apply IH |]; auto.
Qed.

(** The derivative matcher decides the language. *)
Lemma fullMatch_lang (r : regex) (s : string) : fullMatch r s = true <-> lang r s.
Proof.
  revert r. induction s as [| c s IH]; intros r; simpl.
  - apply nullable_lang.
  - rewrite IH. apply deriv_lang.
Qed.

Lemma inClass_digit (c : ascii) : inClass "0" "9" c = isDigit c.
Proof. reflexivity. Qed.

Lemma lang_star_digits (s : string) :
  lang (Star (Class "0" "9")) s <-> allDigits s = true.
Proof.
  split.
  - intros H. remember (Star (Class "0" "9")) as r eqn:Hr.
    induction H; try discriminate; auto.
    injection Hr as ->.
    inversion H; subst. simpl.
    rewrite <- inClass_digit. apply andb_true_iff; auto.
  - induction s as [| c s IH]; simpl; intros H.
    + constructor.
    + apply andb_true_iff in H as [Hc Hs].
      change (lang (Star (Class "0" "9")) (String c EmptyString +:+ s)).
      constructor; auto. constructor. rewrite inClass_digit; auto.
Qed.

Lemma lang_plus_digits (s : string) :
  lang (Plus (Class "0" "9")) s <-> oneOrMoreDigits s = true.
Proof.
  unfold Plus. split.
  - intros H. inversion H as [| | ? ? s1 s2 H1 H2 | | | |]; subst.
    inversion H1; subst. simpl.
    rewrite <- inClass_digit. apply andb_true_iff. split; auto.
    apply lang_star_digits; auto.
  - destruct s as [| c s]; simpl; [discriminate |]. intros H.
    apply andb_true_iff in H as [Hc Hs].
    change (lang (Cat (Class "0" "9") (Star (Class "0" "9")))
                 (String c EmptyString +:+ s)).
    constructor.
    + constructor. rewrite inClass_digit; auto.
    + apply lang_star_digits; auto.
Qed.

(** [eventIDRegex] matches exactly the texts of one or more ASCII digits. *)
Lemma eventIDRegex_digits (id : string) :
  MatchString eventIDRegex id = oneOrMoreDigits id.
Proof.
  unfold MatchString. simpl.
  destruct (oneOrMoreDigits id) eqn:Hd.
  - apply fullMatch_lang, lang_plus_digits; auto.
  - destruct (fullMatch (Plus (Class "0" "9")) id) eqn:Hm; auto.
    apply fullMatch_lang, lang_plus_digits in Hm. congruence.
Qed.

(** ** The paths of [serveCached] *)

Section Paths.

Variable clock : nat -> Time.
Variable origin : nat -> string -> GetResult.

Ltac run :=
  unfold serveCached, fetch, store, http_Error, Write, WriteHeader, io_ReadAll,
    Body_Close, RLock, RUnlock, Lock, Unlock, emit, mapGet, mapSet, time_Now,
    httpClient_Get, mbind, M_bind, mret, M_ret; simpl.

(** Line 89 holds: the entry is served under the read lock. *)
Lemma serveCached_hit (w : ResponseWriter) (u : string) (s : State) (e : cacheEntry) :
  cache s !! u = Some e ->
  Before (clock (ticks s)) (until e) = true ->
  serveCached clock origin w u s =
    (answered w HIT (data e),
     {| cache := cache s; ticks := S (ticks s); calls := calls s;
        trace := trace s ++
          [EvRLock; EvNow (clock (ticks s)); EvWrite (data e); EvRUnlock] |}).
Proof.
  intros He Hb. run. rewrite He. simpl. rewrite Hb. simpl.
  rewrite <- !app_assoc. reflexivity.
Qed.

Lemma fresh_hit (s : State) (u : string) :
  fresh clock s u = true ->
  exists e, cache s !! u = Some e /\ Before (clock (ticks s)) (until e) = true.
Proof.
  unfold fresh. destruct (cache s !! u) as [e |]; [eauto | discriminate].
Qed.

(** Line 89 fails and the fetch fails: nothing is stored. *)
Lemma serveCached_miss_failed (w : ResponseWriter) (u : string) (s : State) (k : ErrKind) :
  fresh clock s u = false ->
  delivery origin (calls s) u = inl k ->
  serveCached clock origin w u s =
    (failedWith w k,
     {| cache := cache s; ticks := storeTick s u; calls := S (calls s);
        trace := trace s ++
          EvRLock :: probe clock s u ++ EvRUnlock :: EvGet u :: failureTrace k |}).
Proof.
  unfold fresh, delivery, storeTick, probe. intros Hf Hd. run.
  destruct (cache s !! u) as [e |]; simpl; [rewrite Hf |]; simpl;
    (destruct (origin (calls s) u) as [resp |]; simpl;
     [ destruct (StatusCode resp =? StatusOK); simpl in *;
       [ destruct (broken (Body resp)); simpl in *; [| discriminate] |]
     |]);
    injection Hd as <-; rewrite <- !app_assoc; reflexivity.
Qed.

(** Line 89 fails and the fetch succeeds: the body is stored and sent. *)
Lemma serveCached_miss_stored (w : ResponseWriter) (u : string) (s : State) (b : bytes) :
  fresh clock s u = false ->
  delivery origin (calls s) u = inr b ->
  serveCached clock origin w u s =
    (answered w MISS b,
     {| cache := <[u := {| data := b; until := Add (clock (storeTick s u)) cacheTTL |}]>
                   (cache s);
        ticks := S (storeTick s u); calls := S (calls s);
        trace := trace s ++
          EvRLock :: probe clock s u ++
          [EvRUnlock; EvGet u; EvReadAll false; EvLock; EvNow (clock (storeTick s u));
           EvUnlock; EvWrite b; EvClose] |}).
Proof.
  unfold fresh, delivery, storeTick, probe. intros Hf Hd. run.
  destruct (cache s !! u) as [e |]; simpl; [rewrite Hf |]; simpl;
    (destruct (origin (calls s) u) as [resp |]; simpl; [| discriminate];
     destruct (StatusCode resp =? StatusOK); simpl in *; [| discriminate];
     destruct (broken (Body resp)); simpl in *; [discriminate |]);
    injection Hd as <-; rewrite <- !app_assoc; reflexivity.
Qed.

End Paths.

(** ** Response writers *)

Lemma header_putHeader (w : ResponseWriter) (code : Z) :
  header (putHeader w code) = header w.
Proof. unfold putHeader. destruct (wrote w); reflexivity. Qed.

Lemma output_putHeader (w : ResponseWriter) (code : Z) :
  output (putHeader w code) = output w.
Proof. unfold putHeader. destruct (wrote w); reflexivity. Qed.

Lemma header_answered (w : ResponseWriter) (src : Source) (p : bytes) :
  header (answered w src p) =
    <["X-Cache" := [sourceText src]]>
      (<["Content-Type" := ["application/json"]]> (header w)).
Proof. unfold answered, putBody. simpl. apply header_putHeader. Qed.

Lemma header_refused (w : ResponseWriter) (msg : string) (code : Z) :
  header (refused w msg code) =
    <["X-Content-Type-Options" := ["nosniff"]]>
      (<["Content-Type" := ["text/plain; charset=utf-8"]]> (header w)).
Proof. unfold refused, putBody. simpl. rewrite !header_putHeader. reflexivity. Qed.

Lemma output_answered (w : ResponseWriter) (src : Source) (p : bytes) :
  output (answered w src p) = output w ++ p.
Proof. unfold answered, putBody. simpl. rewrite output_putHeader. reflexivity. Qed.

Lemma output_refused (w : ResponseWriter) (msg : string) (code : Z) :
  output (refused w msg code) = output w ++ bytesOf (msg +:+ newline).
Proof. unfold refused, putBody. simpl. rewrite !output_putHeader. reflexivity. Qed.

(** A JSON answer is never a failure answer: the content types differ. *)
Lemma answered_not_refused (w : ResponseWriter) (src : Source) (p : bytes)
    (msg : string) (code : Z) :
  answered w src p <> refused w msg code.
Proof.
  intros H. apply (f_equal (fun x => header x !! "Content-Type")) in H.
  rewrite header_answered, header_refused in H.
  rewrite lookup_insert_ne, lookup_insert_eq in H by discriminate.
  rewrite lookup_insert_ne, lookup_insert_eq in H by discriminate.
  discriminate.
Qed.

Lemma answered_inj (w : ResponseWriter) (src1 src2 : Source) (p1 p2 : bytes) :
  answered w src1 p1 = answered w src2 p2 -> src1 = src2 /\ p1 = p2.
Proof.
  intros H. split.
  - apply (f_equal (fun x => header x !! "X-Cache")) in H.
    rewrite !header_answered, !lookup_insert_eq in H.
    destruct src1, src2; simpl in H; congruence.
  - apply (f_equal output) in H. rewrite !output_answered in H.
    eapply app_inv_head; eauto.
Qed.

(** The three failure answers are pairwise distinct: the texts differ. *)
Lemma failedWith_inj (w : ResponseWriter) (k1 k2 : ErrKind) :
  failedWith w k1 = failedWith w k2 -> k1 = k2.
Proof.
  unfold failedWith. intros H. apply (f_equal output) in H.
  rewrite !output_refused in H. apply app_inv_head in H.
  destruct k1, k2; try reflexivity; vm_compute in H; discriminate.
Qed.

(** What the client receives when the answer starts the response. *)
Lemma answered_observed (w : ResponseWriter) (src : Source) (p : bytes) :
  wrote w = None ->
  sentStatus (answered w src p) = Some StatusOK /\
  sentHeader (answered w src p) "Content-Type" = Some ["application/json"] /\
  sentHeader (answered w src p) "X-Cache" = Some [sourceText src] /\
  output (answered w src p) = output w ++ p.
Proof.
  intros Hw. unfold sentStatus, sentHeader, answered, putBody, putHeader. simpl.
  rewrite Hw. simpl. rewrite lookup_insert_eq.
  rewrite lookup_insert_ne, lookup_insert_eq by discriminate. auto.
Qed.

Lemma refused_observed (w : ResponseWriter) (msg : string) (code : Z) :
  wrote w = None ->
  sentStatus (refused w msg code) = Some code /\
  sentHeader (refused w msg code) "Content-Type" = Some ["text/plain; charset=utf-8"] /\
  sentHeader (refused w msg code) "X-Cache" = header w !! "X-Cache" /\
  output (refused w msg code) = output w ++ bytesOf (msg +:+ newline).
Proof.
  intros Hw. unfold sentStatus, sentHeader, refused, putBody, putHeader. simpl.
  rewrite Hw. simpl.
  rewrite !(lookup_insert_ne _ "X-Content-Type-Options") by discriminate.
  rewrite lookup_insert_eq, lookup_insert_ne by discriminate. auto.
Qed.

Lemma since_app (s s' : State) (evs : list Event) :
  trace s' = trace s ++ evs -> since s s' = evs.
Proof. unfold since. intros ->. apply drop_app_length. Qed.

Lemma Before_lt (t u : Time) : Before t u = true <-> t < u.
Proof. apply Z.ltb_lt. Qed.

Lemma Before_ge (t u : Time) : Before t u = false <-> u <= t.
Proof. apply Z.ltb_ge. Qed.

Lemma cacheTTL_five_minutes : cacheTTL = 5 * 60 * 1000000000.
Proof. reflexivity. Qed.

(** ** The read-through contract *)

Section Contract.

Variable clock : nat -> Time.
Variable origin : nat -> string -> GetResult.

Local Abbreviation serve := (serveCached clock origin).

Lemma fresh_true (s : State) (u : string) :
  fresh clock s u = true <->
  exists e, cache s !! u = Some e /\ clock (ticks s) < until e.
Proof.
  unfold fresh. destruct (cache s !! u) as [e |]; split.
  - intros H. exists e. split; [reflexivity | apply Before_lt; auto].
  - intros (e' & [= <-] & H). apply Before_lt; auto.
  - discriminate.
  - intros (e' & [=] & _).
Qed.

Lemma fresh_false (s : State) (u : string) :
  fresh clock s u = false <->
  cache s !! u = None \/ exists e, cache s !! u = Some e /\ until e <= clock (ticks s).
Proof.
  unfold fresh. destruct (cache s !! u) as [e |]; split.
  - intros H. right. exists e. split; [reflexivity | apply Before_ge; auto].
  - intros [[=] | (e' & [= <-] & H)]. apply Before_ge; auto.
  - auto.
  - auto.
Qed.

(** Every miss makes exactly one transport call, for the key. *)
Lemma serveCached_miss_calls (w : ResponseWriter) (u : string) (s : State) :
  fresh clock s u = false ->
  calls (serve w u s).2 = S (calls s) /\
  exists pre post, since s (serve w u s).2 = pre ++ EvGet u :: post /\
                   Forall (fun e => isTransport e = false) pre.
Proof.
  intros Hf. destruct (delivery origin (calls s) u) as [k | b] eqn:Hd.
  - rewrite (serveCached_miss_failed _ _ _ _ _ _ Hf Hd). simpl. split; [reflexivity |].
    exists (EvRLock :: probe clock s u ++ [EvRUnlock]), (failureTrace k). split.
    + erewrite since_app; [| reflexivity]. simpl. rewrite <- app_assoc. reflexivity.
    + constructor; [reflexivity |]. apply Forall_app. split.
      * unfold probe. destruct (cache s !! u); repeat constructor.
      * repeat constructor.
  - rewrite (serveCached_miss_stored _ _ _ _ _ _ Hf Hd). simpl. split; [reflexivity |].
    eexists (EvRLock :: probe clock s u ++ [EvRUnlock]), _. split.
    + erewrite since_app; [| reflexivity]. simpl. rewrite <- app_assoc. reflexivity.
    + constructor; [reflexivity |]. apply Forall_app. split.
      * unfold probe. destruct (cache s !! u); repeat constructor.
      * repeat constructor.
Qed.

(** C1. [serveCached] answers from the cache exactly when the key has an
    entry whose [until] is strictly after the clock reading of the test:
    then the answer is the entry's data marked HIT, it is no failure
    answer, and neither the cache nor the transport is touched (the trace
    has the lock, the clock reading and the write only).  In every other
    case, no entry or [until] not after the reading, the transport is
    called once for the key. *)
Theorem get_serves_from_cache_iff_fresh (w : ResponseWriter) (u : string) (s : State) :
  let r := serve w u s in
  (exists e,
      cache s !! u = Some e /\ clock (ticks s) < until e /\
      r.1 = answered w HIT (data e) /\
      (forall k, r.1 <> failedWith w k) /\
      cache r.2 = cache s /\
      calls r.2 = calls s /\
      since s r.2 = [EvRLock; EvNow (clock (ticks s)); EvWrite (data e); EvRUnlock])
  \/
  ((cache s !! u = None \/
    exists e, cache s !! u = Some e /\ until e <= clock (ticks s)) /\
   calls r.2 = S (calls s) /\
   exists pre post, since s r.2 = pre ++ EvGet u :: post /\
                    Forall (fun e => isTransport e = false) pre).
Proof.
  intros r. subst r. destruct (fresh clock s u) eqn:Hf.
  - left. apply fresh_true in Hf as (e & He & Hlt). exists e.
    rewrite (serveCached_hit clock origin w u s e He) by (apply Before_lt; auto).
    simpl. repeat split; auto.
    + intros k. apply answered_not_refused.
    + apply since_app. reflexivity.
  - right. split; [apply fresh_false; auto |].
    apply serveCached_miss_calls; auto.
Qed.

(** The outcome of the transport call, read off the oracle. *)
Lemma delivery_unavailable (n : nat) (u : string) :
  delivery origin n u = inl UpstreamUnavailable <-> origin n u = GetErr.
Proof.
  unfold delivery. destruct (origin n u) as [resp |].
  - destruct (StatusCode resp =? StatusOK), (broken (Body resp)); simpl;
      split; discriminate.
  - tauto.
Qed.

Lemma delivery_error (n : nat) (u : string) :
  delivery origin n u = inl UpstreamError <->
  exists resp, origin n u = GetOk resp /\ StatusCode resp <> StatusOK.
Proof.
  unfold delivery. destruct (origin n u) as [resp |].
  - destruct (Z.eqb_spec (StatusCode resp) StatusOK) as [Heq | Hne]; simpl.
    + split.
      * destruct (broken (Body resp)); discriminate.
      * intros (resp' & [= <-] & Hne). contradiction.
    + split; [eauto | reflexivity].
  - split; [discriminate | intros (resp & [=] & _)].
Qed.

Lemma delivery_read_failure (n : nat) (u : string) :
  delivery origin n u = inl UpstreamReadFailure <->
  exists resp, origin n u = GetOk resp /\ StatusCode resp = StatusOK /\
               broken (Body resp) = true.
Proof.
  unfold delivery. destruct (origin n u) as [resp |].
  - destruct (Z.eqb_spec (StatusCode resp) StatusOK) as [Heq | Hne]; simpl.
    + destruct (broken (Body resp)) eqn:Hb; split.
      * eauto.
      * reflexivity.
      * discriminate.
      * intros (resp' & [= <-] & _ & Hb'). congruence.
    + split; [discriminate | intros (resp' & [= <-] & Heq & _); contradiction].
  - split; [discriminate | intros (resp & [=] & _)].
Qed.

Lemma delivery_body (n : nat) (u : string) (b : bytes) :
  delivery origin n u = inr b <->
  exists resp, origin n u = GetOk resp /\ StatusCode resp = StatusOK /\
               broken (Body resp) = false /\ content (Body resp) = b.
Proof.
  unfold delivery. destruct (origin n u) as [resp |].
  - destruct (Z.eqb_spec (StatusCode resp) StatusOK) as [Heq | Hne]; simpl.
    + destruct (broken (Body resp)) eqn:Hb; split.
      * discriminate.
      * intros (resp' & [= <-] & _ & Hb' & _). congruence.
      * intros [= <-]. eauto.
      * intros (resp' & [= <-] & _ & _ & <-). reflexivity.
    + split; [discriminate | intros (resp' & [= <-] & Heq & _); contradiction].
  - split; [discriminate | intros (resp & [=] & _)].
Qed.

(** On a miss the answer is the failure [k] exactly when the transport
    delivers [k]. *)
Lemma serveCached_miss_failure_iff (w : ResponseWriter) (u : string) (s : State)
    (k : ErrKind) :
  fresh clock s u = false ->
  (serve w u s).1 = failedWith w k <-> delivery origin (calls s) u = inl k.
Proof.
  intros Hf. destruct (delivery origin (calls s) u) as [k' | b] eqn:Hd.
  - rewrite (serveCached_miss_failed _ _ _ _ _ _ Hf Hd). simpl. split.
    + intros H. apply failedWith_inj in H. congruence.
    + intros [= ->]. reflexivity.
  - rewrite (serveCached_miss_stored _ _ _ _ _ _ Hf Hd). simpl. split.
    + intros H. exfalso. eapply answered_not_refused; eauto.
    + discriminate.
Qed.

Lemma probe_no_read (s : State) (u : string) (f : bool) :
  ~ In (EvReadAll f) (probe clock s u).
Proof. unfold probe. destruct (cache s !! u); simpl; intuition discriminate. Qed.

(** On a miss a read of the body ends in an error exactly when the
    transport delivers a read failure. *)
Lemma serveCached_miss_read_error (w : ResponseWriter) (u : string) (s : State) :
  fresh clock s u = false ->
  In (EvReadAll true) (since s (serve w u s).2) <->
  delivery origin (calls s) u = inl UpstreamReadFailure.
Proof.
  intros Hf. destruct (delivery origin (calls s) u) as [k | b] eqn:Hd.
  - rewrite (serveCached_miss_failed _ _ _ _ _ _ Hf Hd). simpl.
    erewrite since_app; [| reflexivity]. split.
    + intros [H | H]; [discriminate |].
      apply in_app_or in H as [H | H]; [apply probe_no_read in H; contradiction |].
      destruct k; simpl in H; try reflexivity; intuition discriminate.
    + intros [= ->]. right. apply in_or_app. right. simpl. auto.
  - rewrite (serveCached_miss_stored _ _ _ _ _ _ Hf Hd). simpl.
    erewrite since_app; [| reflexivity]. split; [| discriminate].
    intros [H | H]; [discriminate |].
    apply in_app_or in H as [H | H]; [apply probe_no_read in H; contradiction |].
    simpl in H. intuition discriminate.
Qed.

(** C2. On a cache miss the answer is the failure UpstreamUnavailable if
    and only if the transport call itself fails; UpstreamError if and only
    if a response arrives whose status is not 200 (its body is then never
    read); UpstreamReadFailure if and only if the read of the body ends in
    an error, which is the case exactly for a response with status 200
    whose body breaks off.  The fetch path gives no other failure: every
    miss ends in one of these three or in the MISS answer. *)
Theorem fetch_error_kinds (w : ResponseWriter) (u : string) (s : State) :
  fresh clock s u = false ->
  let r := serve w u s in
  (r.1 = failedWith w UpstreamUnavailable <-> origin (calls s) u = GetErr) /\
  (r.1 = failedWith w UpstreamError <->
     exists resp, origin (calls s) u = GetOk resp /\ StatusCode resp <> StatusOK) /\
  (r.1 = failedWith w UpstreamError -> forall f, ~ In (EvReadAll f) (since s r.2)) /\
  (r.1 = failedWith w UpstreamReadFailure <-> In (EvReadAll true) (since s r.2)) /\
  (In (EvReadAll true) (since s r.2) <->
     exists resp, origin (calls s) u = GetOk resp /\ StatusCode resp = StatusOK /\
                  broken (Body resp) = true) /\
  ((exists k, r.1 = failedWith w k) \/ (exists b, r.1 = answered w MISS b)) /\
  (forall msg code, r.1 = refused w msg code -> exists k, r.1 = failedWith w k).
Proof.
  intros Hf r. subst r.
  assert (Hcases : (exists k, (serve w u s).1 = failedWith w k) \/
                   (exists b, (serve w u s).1 = answered w MISS b)).
  { destruct (delivery origin (calls s) u) as [k | b] eqn:Hd.
    - left. exists k. apply serveCached_miss_failure_iff; auto.
    - right. exists b. rewrite (serveCached_miss_stored _ _ _ _ _ _ Hf Hd). reflexivity. }
  repeat split.
  - intros H. apply delivery_unavailable, serveCached_miss_failure_iff with (w := w); auto.
  - intros H. apply serveCached_miss_failure_iff, delivery_unavailable; auto.
  - intros H. apply delivery_error, serveCached_miss_failure_iff with (w := w); auto.
  - intros H. apply serveCached_miss_failure_iff, delivery_error; auto.
  - intros H f Hin. apply serveCached_miss_failure_iff in H; auto.
    revert Hin. rewrite (serveCached_miss_failed _ _ _ _ _ _ Hf H). simpl.
    erewrite since_app; [| reflexivity].
    intros [Hin | Hin]; [discriminate |].
    apply in_app_or in Hin as [Hin | Hin]; [apply probe_no_read in Hin; contradiction |].
    simpl in Hin. intuition discriminate.
  - intros H. apply serveCached_miss_read_error, serveCached_miss_failure_iff with (w := w); auto.
  - intros H. apply serveCached_miss_failure_iff, serveCached_miss_read_error with (w := w); auto.
  - intros H. apply delivery_read_failure, serveCached_miss_read_error with (w := w); auto.
  - intros H. apply serveCached_miss_read_error, delivery_read_failure; auto.
  - exact Hcases.
  - intros msg code H. destruct Hcases as [Hk | [b Hb]]; [exact Hk |].
    rewrite Hb in H. exfalso. eapply answered_not_refused; eauto.
Qed.

(** C3. On a miss where the transport delivers a response with status 200
    whose body is read to the end, [serveCached] answers with that body
    marked MISS, which is no failure answer, and puts the body in the
    cache under the key with [until] five minutes after the clock reading
    taken for the store, the last reading of the run; nothing else in the
    cache changes. *)
Theorem miss_stores_and_returns_body (w : ResponseWriter) (u : string) (s : State)
    (resp : Response) :
  fresh clock s u = false ->
  origin (calls s) u = GetOk resp ->
  StatusCode resp = StatusOK ->
  broken (Body resp) = false ->
  let r := serve w u s in
  let now := clock (storeTick s u) in
  r.1 = answered w MISS (content (Body resp)) /\
  (forall k, r.1 <> failedWith w k) /\
  ticks r.2 = S (storeTick s u) /\
  In (EvNow now) (since s r.2) /\
  cache r.2 =
    <[u := {| data := content (Body resp); until := now + 5 * Minute |}]> (cache s) /\
  cache r.2 !! u =
    Some {| data := content (Body resp); until := now + 5 * 60 * 1000000000 |} /\
  (forall key, key <> u -> cache r.2 !! key = cache s !! key).
Proof.
  intros Hf Ho Hst Hb r now. subst r now.
  assert (Hd : delivery origin (calls s) u = inr (content (Body resp))).
  { apply delivery_body. exists resp. auto. }
  rewrite (serveCached_miss_stored _ _ _ _ _ _ Hf Hd). simpl.
  split; [reflexivity |].
  split; [intros k; apply answered_not_refused |].
  split; [reflexivity |].
  split.
  { erewrite since_app; [| reflexivity].
    right. apply in_or_app. right. simpl. tauto. }
  split; [reflexivity |].
  split.
  - apply lookup_insert_eq.
  - intros key Hne. apply lookup_insert_ne. congruence.
Qed.

(** A failed request stores nothing. *)
Lemma failure_keeps_cache (w : ResponseWriter) (u : string) (s : State) (k : ErrKind) :
  (serve w u s).1 = failedWith w k -> cache (serve w u s).2 = cache s.
Proof.
  intros H. destruct (fresh clock s u) eqn:Hf.
  - apply fresh_hit in Hf as (e & He & Hb).
    rewrite (serveCached_hit clock origin w u s e He Hb). reflexivity.
  - apply serveCached_miss_failure_iff in H; auto.
    rewrite (serveCached_miss_failed _ _ _ _ _ _ Hf H). reflexivity.
Qed.

(** C4. If a request for a key fails, with whichever of the three
    failures, the cache is as it was: a key without an entry still has
    none (and the next request for it is a miss again).  A later request
    for the key that misses and whose fetch succeeds puts the fetched body
    in the cache and answers with it. *)
Theorem failure_leaves_cache_unchanged (w : ResponseWriter) (u : string) (s : State)
    (k : ErrKind) :
  let r := serve w u s in
  r.1 = failedWith w k ->
  cache r.2 = cache s /\
  (cache s !! u = None -> (mapGet u r.2).1 = (zeroEntry, false) /\
                          fresh clock r.2 u = false) /\
  (forall w2 b,
      fresh clock r.2 u = false ->
      delivery origin (calls r.2) u = inr b ->
      let r2 := serve w2 u r.2 in
      r2.1 = answered w2 MISS b /\
      (mapGet u r2.2).1 =
        ({| data := b; until := clock (storeTick r.2 u) + cacheTTL |}, true) /\
      cache r2.2 =
        <[u := {| data := b; until := clock (storeTick r.2 u) + cacheTTL |}]> (cache s)).
Proof.
  intros r H. subst r.
  pose proof (failure_keeps_cache w u s k H) as Hc.
  split; [exact Hc |]. split.
  - intros Hn. unfold mapGet, fresh. simpl. rewrite Hc, Hn. auto.
  - intros w2 b Hf Hd r2. subst r2.
    rewrite (serveCached_miss_stored _ _ _ _ _ _ Hf Hd).
    unfold mapGet. simpl. rewrite lookup_insert_eq, Hc. auto.
Qed.

(** C7. When the entry of the key has expired and the fetch fails, the
    request fails with the failure of the fetch: the answer is no JSON
    answer, with the expired data or any other, although the expired entry
    is still in the cache afterwards. *)
Theorem expired_entry_is_no_fallback (w : ResponseWriter) (u : string) (s : State)
    (e : cacheEntry) (k : ErrKind) :
  cache s !! u = Some e ->
  until e <= clock (ticks s) ->
  delivery origin (calls s) u = inl k ->
  let r := serve w u s in
  r.1 = failedWith w k /\
  (forall src p, r.1 <> answered w src p) /\
  cache r.2 !! u = Some e /\
  (mapGet u r.2).1 = (e, true).
Proof.
  intros He Hexp Hd r. subst r.
  assert (Hf : fresh clock s u = false).
  { apply fresh_false. right. eauto. }
  rewrite (serveCached_miss_failed _ _ _ _ _ _ Hf Hd). simpl.
  split; [reflexivity |]. split; [| split].
  - intros src p H. symmetry in H. eapply answered_not_refused; eauto.
  - exact He.
  - unfold mapGet. simpl. rewrite He. reflexivity.
Qed.

(** C10. On a miss that gets a response, the answer is the failure
    UpstreamError exactly when the status code is not 200: every other
    status, 204 or a redirect status as much as 500, fails the request,
    the body is not read and nothing is stored. *)
Theorem only_status_200_succeeds (w : ResponseWriter) (u : string) (s : State)
    (resp : Response) :
  fresh clock s u = false ->
  origin (calls s) u = GetOk resp ->
  let r := serve w u s in
  (r.1 = failedWith w UpstreamError <-> StatusCode resp <> 200) /\
  (StatusCode resp <> 200 ->
   cache r.2 = cache s /\
   (forall f, ~ In (EvReadAll f) (since s r.2)) /\
   (forall src p, r.1 <> answered w src p)).
Proof.
  intros Hf Ho r. subst r. split.
  - split.
    + intros H. apply serveCached_miss_failure_iff, delivery_error in H; auto.
      destruct H as (resp' & Ho' & Hne). rewrite Ho in Ho'.
      injection Ho' as <-. exact Hne.
    + intros Hne. apply serveCached_miss_failure_iff, delivery_error; eauto.
  - intros Hne.
    assert (Hd : delivery origin (calls s) u = inl UpstreamError).
    { apply delivery_error. eauto. }
    rewrite (serveCached_miss_failed _ _ _ _ _ _ Hf Hd). simpl.
    split; [reflexivity |]. split.
    + intros f. erewrite since_app; [| reflexivity].
      intros [Hin | Hin]; [discriminate |].
      apply in_app_or in Hin as [Hin | Hin]; [apply probe_no_read in Hin; contradiction |].
      simpl in Hin. intuition discriminate.
    + intros src p H. symmetry in H. eapply answered_not_refused; eauto.
Qed.

(** A fetch over an entry already in the cache puts the new entry in its
    place: data and expiry both come from the new fetch. *)
Lemma refetch_replaces_entry (w : ResponseWriter) (u : string) (s : State)
    (old : cacheEntry) (b : bytes) :
  cache s !! u = Some old ->
  fresh clock s u = false ->
  delivery origin (calls s) u = inr b ->
  cache (serve w u s).2 =
    <[u := {| data := b; until := clock (S (ticks s)) + cacheTTL |}]> (cache s).
Proof.
  intros Ho Hf Hd. rewrite (serveCached_miss_stored _ _ _ _ _ _ Hf Hd). simpl.
  unfold storeTick. rewrite Ho. reflexivity.
Qed.

Lemma store_state (ttl : Duration) (key : string) (p : bytes) (s : State) :
  store clock ttl key p s =
    (tt, {| cache := <[key := {| data := p; until := clock (ticks s) + ttl |}]> (cache s);
            ticks := S (ticks s); calls := calls s;
            trace := trace s ++ [EvLock; EvNow (clock (ticks s)); EvUnlock] |}).
Proof.
  unfold store, Lock, Unlock, emit, mapSet, time_Now, mbind, M_bind. simpl.
  rewrite <- !app_assoc. reflexivity.
Qed.

(** C6. After a store of [A] under a key with one duration and then a
    store of [B] under the same key with another, the lookup of the key
    finds [B] with the expiry of the second store (its clock reading plus
    its duration).  The cache is the one before the two stores with the
    second entry put under the key, whatever [A] and the first duration
    were: the first entry is found under no key. *)
Theorem store_twice_keeps_second (ttl1 ttl2 : Duration) (key : string) (A B : bytes)
    (s : State) :
  let s1 := (store clock ttl1 key A s).2 in
  let s2 := (store clock ttl2 key B s1).2 in
  let second := {| data := B; until := clock (S (ticks s)) + ttl2 |} in
  (mapGet key s2).1 = (second, true) /\
  cache s2 = <[key := second]> (cache s) /\
  (forall k e, cache s2 !! k = Some e ->
               (k = key /\ e = second) \/ (k <> key /\ cache s !! k = Some e)).
Proof.
  intros s1 s2 second. subst s1 s2 second. rewrite !store_state. simpl.
  split; [| split].
  - unfold mapGet. simpl. rewrite lookup_insert_eq. reflexivity.
  - apply insert_insert_eq.
  - intros k e. rewrite insert_insert_eq.
    destruct (decide (k = key)) as [-> | Hne].
    + rewrite lookup_insert_eq. intros [= <-]. left. auto.
    + rewrite lookup_insert_ne by congruence. intros H. right. auto.
Qed.

Lemma readPath_state (w : ResponseWriter) (u : string) (s : State) :
  readPath clock w u s =
    match cache s !! u with
    | Some e =>
        if Before (clock (ticks s)) (until e)
        then ((e, true, Some (answered w HIT (data e))),
              {| cache := cache s; ticks := S (ticks s); calls := calls s;
                 trace := trace s ++
                   [EvRLock; EvNow (clock (ticks s)); EvWrite (data e); EvRUnlock] |})
        else ((e, true, None),
              {| cache := cache s; ticks := S (ticks s); calls := calls s;
                 trace := trace s ++ [EvRLock; EvNow (clock (ticks s)); EvRUnlock] |})
    | None =>
        ((zeroEntry, false, None),
         {| cache := cache s; ticks := ticks s; calls := calls s;
            trace := trace s ++ [EvRLock; EvRUnlock] |})
    end.
Proof.
  unfold readPath, Write, RLock, RUnlock, emit, mapGet, time_Now, mbind, M_bind,
    mret, M_ret. simpl.
  destruct (cache s !! u) as [e |]; simpl.
  - destruct (Before (clock (ticks s)) (until e)); simpl;
      rewrite <- !app_assoc; reflexivity.
  - rewrite <- !app_assoc. reflexivity.
Qed.

(** [serveCached] is its read path, followed by the fetch when the read
    path gave no answer. *)
Lemma serveCached_readPath (w : ResponseWriter) (u : string) (s : State) :
  serve w u s =
    match (readPath clock w u s).1.2 with
    | Some w' => (w', (readPath clock w u s).2)
    | None => fetch clock origin w u (readPath clock w u s).2
    end.
Proof.
  unfold serveCached, readPath, Write, RLock, RUnlock, emit, mapGet, time_Now,
    mbind, M_bind, mret, M_ret. simpl.
  destruct (cache s !! u) as [e |]; simpl; [| reflexivity].
  destruct (Before (clock (ticks s)) (until e)); reflexivity.
Qed.

Lemma mapGet_cache (u : string) (s1 s2 : State) :
  cache s1 = cache s2 -> (mapGet u s1).1 = (mapGet u s2).1.
Proof. unfold mapGet. simpl. intros ->. reflexivity. Qed.

(** One run of the read path: what it reads, and what it leaves. *)
Lemma readPath_once (w : ResponseWriter) (u : string) (s : State) :
  (readPath clock w u s).1.1 = (mapGet u s).1 /\
  cache (readPath clock w u s).2 = cache s /\
  calls (readPath clock w u s).2 = calls s /\
  ticks (readPath clock w u s).2 =
    (ticks s + if (mapGet u s).1.2 then 1 else 0)%nat.
Proof.
  rewrite readPath_state. unfold mapGet. simpl.
  destruct (cache s !! u) as [e |]; simpl.
  - destruct (Before (clock (ticks s)) (until e)); simpl; repeat split; lia.
  - repeat split. lia.
Qed.

Lemma readPaths_many (w : ResponseWriter) (u : string) (n : nat) (s : State) :
  (readPaths clock w u n s).1 = replicate n (mapGet u s).1 /\
  cache (readPaths clock w u n s).2 = cache s /\
  calls (readPaths clock w u n s).2 = calls s /\
  ticks (readPaths clock w u n s).2 =
    (ticks s + if (mapGet u s).1.2 then n else 0)%nat.
Proof.
  revert s. induction n as [| n IH]; intros s.
  - cbn [readPaths replicate]. unfold mret, M_ret. cbn [fst snd].
    repeat split. destruct ((mapGet u s).1.2); lia.
  - cbn [readPaths replicate]. unfold mbind, M_bind, mret, M_ret. cbn [fst snd].
    destruct (readPath_once w u s) as (H1 & H2 & H3 & H4).
    destruct (IH (readPath clock w u s).2) as (I1 & I2 & I3 & I4).
    rewrite (mapGet_cache u _ s H2) in I1, I4.
    rewrite I1, I2, I3, I4, H1, H2, H3, H4.
    repeat split. destruct ((mapGet u s).1.2); lia.
Qed.

(** C9. The read path of [serveCached] (lines 87-96, which [serveCached]
    runs first and follows by the fetch only when they gave no answer)
    never changes the cache, in any state and for any key, entry present
    or not, fresh or expired: it yields the (entry, found) of the map read
    and leaves the cache and the transport alone.  Run any number of times
    in a row it yields that same (entry, found) every time, and the lookup
    of the key afterwards is still the same; only the clock advances, by
    one reading for each run that found an entry.  A whole request changes
    the cache only on a miss whose fetch delivered a body. *)
Theorem read_path_is_idempotent (w : ResponseWriter) (key : string) (n : nat) (s : State) :
  let one := readPath clock w key s in
  let many := readPaths clock w key n s in
  serve w key s =
    match one.1.2 with
    | Some w' => (w', one.2)
    | None => fetch clock origin w key one.2
    end /\
  (is_Some one.1.2 <-> fresh clock s key = true) /\
  one.1.1 = (mapGet key s).1 /\
  cache one.2 = cache s /\ calls one.2 = calls s /\
  many.1 = replicate n (mapGet key s).1 /\
  cache many.2 = cache s /\ calls many.2 = calls s /\
  ticks many.2 = (ticks s + if (mapGet key s).1.2 then n else 0)%nat /\
  (mapGet key many.2).1 = (mapGet key s).1 /\
  (cache (serve w key s).2 = cache s \/
   fresh clock s key = false /\ exists b, delivery origin (calls s) key = inr b).
Proof.
  intros one many. subst one many.
  destruct (readPath_once w key s) as (H1 & H2 & H3 & _).
  destruct (readPaths_many w key n s) as (I1 & I2 & I3 & I4).
  split; [apply serveCached_readPath |].
  split.
  { rewrite readPath_state. unfold fresh.
    destruct (cache s !! key) as [e |]; simpl.
    - destruct (Before (clock (ticks s)) (until e)); simpl; split;
        [eauto | eauto | intros [x Hx]; discriminate | discriminate].
    - split; [intros [x Hx]; discriminate | discriminate]. }
  repeat (split; [assumption |]).
  split; [apply mapGet_cache; exact I2 |].
  destruct (fresh clock s key) eqn:Hf.
  - left. apply fresh_hit in Hf as (e & He & Hb).
    rewrite (serveCached_hit clock origin w key s e He Hb). reflexivity.
  - destruct (delivery origin (calls s) key) as [k | b] eqn:Hd.
    + left. rewrite (serveCached_miss_failed _ _ _ _ _ _ Hf Hd). reflexivity.
    + right. eauto.
Qed.

Lemma underLock_probe (sel : Event -> bool) (s : State) (u : string) (tl : list Event) :
  sel (EvNow (clock (ticks s))) = false ->
  underLock sel 1 (probe clock s u ++ tl) = underLock sel 1 tl.
Proof.
  intros Hsel. unfold probe. destruct (cache s !! u); simpl; [rewrite Hsel |]; reflexivity.
Qed.

Lemma heldAfter_probe (s : State) (u : string) (tl : list Event) :
  heldAfter 1 (probe clock s u ++ tl) = heldAfter 1 tl.
Proof. unfold probe. destruct (cache s !! u); reflexivity. Qed.

(** X12. Along every run of [serveCached] the locks taken are released, and
    no transport call, body read or close happens while [cacheMutex] is
    held.  A write to the client happens under the lock exactly on a hit:
    there [w.Write(entry.data)] runs between [RLock] and [RUnlock] (lines
    87 to 93), whereas the miss path writes only after its unlock. *)
Theorem client_write_under_lock_iff_hit (w : ResponseWriter) (u : string) (s : State) :
  let evs := since s (serve w u s).2 in
  heldAfter 0 evs = 0%nat /\
  underLock isTransport 0 evs = false /\
  underLock isClientWrite 0 evs = fresh clock s u.
Proof.
  intros evs. subst evs. destruct (fresh clock s u) eqn:Hf.
  - apply fresh_hit in Hf as (e & He & Hb).
    rewrite (serveCached_hit clock origin w u s e He Hb).
    erewrite since_app; [| reflexivity]. simpl. auto.
  - destruct (delivery origin (calls s) u) as [k | b] eqn:Hd.
    + rewrite (serveCached_miss_failed _ _ _ _ _ _ Hf Hd).
      erewrite since_app; [| reflexivity]. simpl.
      rewrite heldAfter_probe, !underLock_probe by reflexivity.
      destruct k; simpl; auto.
    + rewrite (serveCached_miss_stored _ _ _ _ _ _ Hf Hd).
      erewrite since_app; [| reflexivity]. simpl.
      rewrite heldAfter_probe, !underLock_probe by reflexivity.
      simpl. auto.
Qed.

Lemma sliceFrom_eventPrefix (id : string) :
  sliceFrom (eventPrefix +:+ id) (String.length eventPrefix) = Some id.
Proof. reflexivity. Qed.

(** C5. For a GET request on the by-id path the handler accepts the
    identifier, and hands the upstream URL built from it to
    [serveCached], if and only if the identifier is one or more ASCII
    digits.  Any other identifier gets the answer "Invalid event id" with
    status 400 and nothing else happens: no lock, no clock reading, no
    transport call, no change of the cache.  The pattern accepts 123 and 0
    and rejects 12a, -1, the empty text and 1 2. *)
Theorem eventByIDHandler_validates (w : ResponseWriter) (id : string) (s : State) :
  let r := eventByIDHandler clock origin w
             {| Method := MethodGet; Path := eventPrefix +:+ id |} s in
  (if oneOrMoreDigits id
   then r.1 = Some (serve w (baseUpstream +:+ "/event/" +:+ id) s).1 /\
        r.2 = (serve w (baseUpstream +:+ "/event/" +:+ id) s).2
   else r.1 = Some (refused w "Invalid event id" StatusBadRequest) /\
        cache r.2 = cache s /\ ticks r.2 = ticks s /\ calls r.2 = calls s /\
        since s r.2 = refusal "Invalid event id" StatusBadRequest) /\
  MatchString eventIDRegex "123" = true /\
  MatchString eventIDRegex "0" = true /\
  MatchString eventIDRegex "12a" = false /\
  MatchString eventIDRegex "-1" = false /\
  MatchString eventIDRegex EmptyString = false /\
  MatchString eventIDRegex "1 2" = false.
Proof.
  intros r. subst r. split; [| repeat split; reflexivity].
  unfold eventByIDHandler. cbn [Method Path].
  change (negb (String.eqb MethodGet MethodGet)) with false. cbv iota.
  rewrite sliceFrom_eventPrefix, eventIDRegex_digits.
  destruct (oneOrMoreDigits id); simpl.
  - unfold returned, mbind, M_bind, mret, M_ret. simpl. auto.
  - unfold returned, http_Error, Write, WriteHeader, emit, mbind, M_bind, mret, M_ret.
    simpl. repeat split.
    erewrite since_app; [reflexivity |]. simpl.
    rewrite <- app_assoc. reflexivity.
Qed.

(** X10. Freshness and expiry after a store: a request that follows a stored
    fetch is a hit with the stored body as long as its clock reading is
    before the expiry, and calls the transport again from the expiry on. *)
Lemma stored_then_served (w w2 : ResponseWriter) (u : string) (s : State) (b : bytes) :
  fresh clock s u = false ->
  delivery origin (calls s) u = inr b ->
  let s1 := (serve w u s).2 in
  let expiry := clock (storeTick s u) + cacheTTL in
  (clock (ticks s1) < expiry ->
   (serve w2 u s1).1 = answered w2 HIT b /\ calls (serve w2 u s1).2 = calls s1) /\
  (expiry <= clock (ticks s1) -> calls (serve w2 u s1).2 = S (calls s1)).
Proof.
  intros Hf Hd s1 expiry. subst s1 expiry.
  rewrite (serveCached_miss_stored _ _ _ _ _ _ Hf Hd). cbn [snd ticks calls].
  set (s1 := {| cache := _; ticks := _; calls := _; trace := _ |}).
  assert (He : cache s1 !! u =
               Some {| data := b; until := Add (clock (storeTick s u)) cacheTTL |}).
  { apply lookup_insert_eq. }
  split.
  - intros Hlt. rewrite (serveCached_hit clock origin w2 u s1 _ He).
    + split; reflexivity.
    + apply Before_lt. exact Hlt.
  - intros Hge. apply serveCached_miss_calls.
    apply fresh_false. right. eexists. split; [exact He | exact Hge].
Qed.

End Contract.

(** ** The scenarios of the interface, run in the concrete world *)

(** The events list: a first request is a MISS that fetches and stores the
    list until minute 5; the requests at minutes 2 and 4 are HITs without
    a transport call; the request at minute 6 calls the transport again
    (which fails, and the expired entry stays). *)
Example scenario_events_list :
  let handler := proxyStatic demoClock demoOrigin "/events?show_past=true" in
  let r1 := handler newWriter (getRequest "/api/calendar/events") startState in
  let r2 := handler newWriter (getRequest "/api/calendar/events") r1.2 in
  let r3 := handler newWriter (getRequest "/api/calendar/events") r2.2 in
  let r4 := handler newWriter (getRequest "/api/calendar/events") r3.2 in
  r1.1 = Some (answered newWriter MISS noEvents) /\
  cache r1.2 !! eventsURL = Some {| data := noEvents; until := 5 * Minute |} /\
  calls r1.2 = 1%nat /\
  r2.1 = Some (answered newWriter HIT noEvents) /\ calls r2.2 = 1%nat /\
  r3.1 = Some (answered newWriter HIT noEvents) /\ calls r3.2 = 1%nat /\
  r4.1 = Some (failedWith newWriter UpstreamUnavailable) /\ calls r4.2 = 2%nat /\
  cache r4.2 = cache r1.2.
Proof. cbv zeta. repeat apply conj; vm_compute; reflexivity. Qed.

(** Event 42 while the origin answers 500: the request fails and no entry
    is made; the request for [abc] that follows is refused with status 400
    and no transport call. *)
Example scenario_event_by_id :
  let r1 := eventByIDHandler demoClock demoOrigin newWriter
              (getRequest "/api/calendar/event/42") (atCall 2) in
  let r2 := eventByIDHandler demoClock demoOrigin newWriter
              (getRequest "/api/calendar/event/abc") r1.2 in
  r1.1 = Some (failedWith newWriter UpstreamError) /\
  cache r1.2 = empty /\ calls r1.2 = 3%nat /\
  r2.1 = Some (refused newWriter "Invalid event id" StatusBadRequest) /\
  sentStatus (refused newWriter "Invalid event id" StatusBadRequest) = Some 400 /\
  cache r2.2 = empty /\ calls r2.2 = 3%nat /\
  since r1.2 r2.2 = refusal "Invalid event id" StatusBadRequest.
Proof. cbv zeta. repeat apply conj; vm_compute; reflexivity. Qed.

(** A path shorter than the prefix makes the slice expression panic. *)
Example eventByIDHandler_short_path :
  (eventByIDHandler demoClock demoOrigin newWriter (getRequest "/api") startState).1 = None.
Proof. reflexivity. Qed.

(** The preflight answer of [withCORS]. *)
Example withCORS_options :
  let r := withCORS (proxyStatic demoClock demoOrigin "/genres") newWriter
             {| Method := MethodOptions; Path := "/api/calendar/genres" |} startState in
  (sentStatus <$> r.1) = Some (Some StatusNoContent) /\
  calls r.2 = 0%nat /\ cache r.2 = empty.
Proof. cbv zeta. repeat apply conj; vm_compute; reflexivity. Qed.

(** C8. A hit, run: the key holds an entry that expires at minute 3 and
    the clock reads minute 2.  The trace of [serveCached] is read lock,
    clock reading, write of the entry to the client, read unlock: the
    response is written while the read lock on the cache is held. *)
Theorem hit_writes_response_under_read_lock :
  let s := holding "k" genres (3 * Minute) 1 0 in
  let r := serveCached demoClock demoOrigin newWriter "k" s in
  fresh demoClock s "k" = true /\
  r.1 = answered newWriter HIT genres /\
  trace r.2 = [EvRLock; EvNow (2 * Minute); EvWrite genres; EvRUnlock] /\
  underLock isClientWrite 0 (trace r.2) = true.
Proof.
  intros s r. subst s r.
  split; [reflexivity |].
  split; [vm_compute; reflexivity |].
  split; vm_compute; reflexivity.
Qed.

(** ** The theorems with hypotheses, at concrete inputs *)

Lemma fetch_error_kinds_witness :
  fresh demoClock (atCall 1) "k" = false /\
  ((serveCached demoClock demoOrigin newWriter "k" (atCall 1)).1 =
     failedWith newWriter UpstreamUnavailable <->
   demoOrigin (calls (atCall 1)) "k" = GetErr).
Proof.
  split; [reflexivity |].
  pose proof (fetch_error_kinds demoClock demoOrigin newWriter "k" (atCall 1) eq_refl) as H.
  cbv zeta in H. exact (proj1 H).
Defined.

Lemma miss_stores_and_returns_body_witness :
  fresh demoClock startState "k" = false /\
  (serveCached demoClock demoOrigin newWriter "k" startState).1 =
    answered newWriter MISS noEvents /\
  cache (serveCached demoClock demoOrigin newWriter "k" startState).2 !! "k" =
    Some {| data := noEvents; until := 5 * 60 * 1000000000 |}.
Proof.
  split; [reflexivity |].
  pose proof (miss_stores_and_returns_body demoClock demoOrigin newWriter "k" startState
                {| StatusCode := 200; Body := {| content := noEvents; broken := false |} |}
                eq_refl eq_refl eq_refl eq_refl) as H.
  cbv zeta in H. destruct H as (H1 & _ & _ & _ & _ & H2 & _).
  split; [exact H1 | exact H2].
Defined.

Lemma failure_leaves_cache_unchanged_witness :
  (serveCached demoClock demoOrigin newWriter "k" (atCall 2)).1 =
    failedWith newWriter UpstreamError /\
  cache (serveCached demoClock demoOrigin newWriter "k" (atCall 2)).2 = cache (atCall 2).
Proof.
  assert (H : (serveCached demoClock demoOrigin newWriter "k" (atCall 2)).1 =
              failedWith newWriter UpstreamError) by (vm_compute; reflexivity).
  split; [exact H |].
  pose proof (failure_leaves_cache_unchanged demoClock demoOrigin newWriter "k" (atCall 2)
                UpstreamError) as T.
  cbv zeta in T. exact (proj1 (T H)).
Defined.

Lemma expired_entry_is_no_fallback_witness :
  cache (holding "k" genres (1 * Minute) 1 1) !! "k" =
    Some {| data := genres; until := 1 * Minute |} /\
  1 * Minute <= demoClock 1 /\
  (serveCached demoClock demoOrigin newWriter "k" (holding "k" genres (1 * Minute) 1 1)).1 =
    failedWith newWriter UpstreamUnavailable /\
  cache (serveCached demoClock demoOrigin newWriter "k"
           (holding "k" genres (1 * Minute) 1 1)).2 !! "k" =
    Some {| data := genres; until := 1 * Minute |}.
Proof.
  assert (He : cache (holding "k" genres (1 * Minute) 1 1) !! "k" =
               Some {| data := genres; until := 1 * Minute |}) by (vm_compute; reflexivity).
  assert (Hx : 1 * Minute <= demoClock 1) by (vm_compute; discriminate).
  split; [exact He |]. split; [exact Hx |].
  pose proof (expired_entry_is_no_fallback demoClock demoOrigin newWriter "k"
                (holding "k" genres (1 * Minute) 1 1)
                {| data := genres; until := 1 * Minute |} UpstreamUnavailable
                He Hx eq_refl) as H.
  cbv zeta in H. destruct H as (H1 & _ & H2 & _).
  split; [exact H1 | exact H2].
Defined.

Lemma only_status_200_succeeds_witness :
  fresh demoClock (atCall 4) "k" = false /\
  demoOrigin (calls (atCall 4)) "k" = complete 204 [] /\
  (serveCached demoClock demoOrigin newWriter "k" (atCall 4)).1 =
    failedWith newWriter UpstreamError.
Proof.
  split; [reflexivity |]. split; [reflexivity |].
  pose proof (only_status_200_succeeds demoClock demoOrigin newWriter "k" (atCall 4)
                {| StatusCode := 204; Body := {| content := []; broken := false |} |}
                eq_refl eq_refl) as H.
  cbv zeta in H. destruct H as [H _]. apply (proj2 H). discriminate.
Defined.

(** ** The handlers around [serveCached] *)

Lemma sliceFrom_None (s : string) (n : nat) :
  sliceFrom s n = None <-> (String.length s < n)%nat.
Proof.
  revert s. induction n as [| n IH]; intros s; simpl.
  - split; [discriminate | lia].
  - destruct s as [| c s]; simpl.
    + split; [lia | reflexivity].
    + rewrite IH. lia.
Qed.

Lemma sliceFrom_append (pre id : string) :
  sliceFrom (pre +:+ id) (String.length pre) = Some id.
Proof. induction pre as [| c pre IH]; simpl; [reflexivity | exact IH]. Qed.

Lemma append_inj_l (p a b : string) : p +:+ a = p +:+ b -> a = b.
Proof.
  induction p as [| c p IH]; simpl; intros H; [exact H |].
  injection H as H. auto.
Qed.

Lemma method_not_GET (m : string) :
  m <> MethodGet -> negb (String.eqb m MethodGet) = true.
Proof. intros H. apply negb_true_iff, String.eqb_neq. exact H. Qed.

Section Handlers.

Variable clock : nat -> Time.
Variable origin : nat -> string -> GetResult.

Local Abbreviation serve := (serveCached clock origin).

Ltac runError :=
  unfold returned, http_Error, Write, WriteHeader, emit, mbind, M_bind, mret, M_ret;
  simpl.

(** X1. A request whose method is not GET is refused by both handlers with
    status 405 and the text "Method not allowed", whatever its path: the
    only effect is the write of that answer, and the cache, the clock and
    the transport are not touched.  The by-id handler checks the method
    before it slices the path, so it does not panic on a short path. *)
Theorem other_methods_are_refused (path : string) (w : ResponseWriter) (r : Request)
    (s : State) :
  Method r <> MethodGet ->
  let refusedState :=
    {| cache := cache s; ticks := ticks s; calls := calls s;
       trace := trace s ++ refusal "Method not allowed" StatusMethodNotAllowed |} in
  proxyStatic clock origin path w r s =
    (Some (refused w "Method not allowed" StatusMethodNotAllowed), refusedState) /\
  eventByIDHandler clock origin w r s =
    (Some (refused w "Method not allowed" StatusMethodNotAllowed), refusedState).
Proof.
  intros Hm st. subst st.
  unfold proxyStatic, eventByIDHandler. rewrite (method_not_GET _ Hm).
  runError. rewrite <- app_assoc. split; reflexivity.
Qed.

(** X2. The by-id handler panics exactly on a GET request whose path is
    shorter than the 20 bytes of the route prefix (the slice expression of
    line 73 is then out of range), and the panic comes before any effect.
    On every other request it leaves a response. *)
Theorem eventByIDHandler_panics_iff_short_path (w : ResponseWriter) (r : Request)
    (s : State) :
  let out := eventByIDHandler clock origin w r s in
  (out.1 = None <-> Method r = MethodGet /\ (String.length (Path r) < 20)%nat) /\
  (out.1 = None -> out.2 = s).
Proof.
  intros out. subst out. unfold eventByIDHandler.
  destruct (String.eqb_spec (Method r) MethodGet) as [Hm | Hm]; cbn [negb].
  - destruct (sliceFrom (Path r) (String.length eventPrefix)) as [id |] eqn:Hs.
    + assert (Hlen : ~ (String.length (Path r) < 20)%nat).
      { intros Hlt. apply (sliceFrom_None (Path r) 20) in Hlt.
        change (String.length eventPrefix) with 20%nat in Hs. congruence. }
      destruct (negb (MatchString eventIDRegex id)); unfold returned, mbind, M_bind,
        mret, M_ret; cbn [fst snd]; (split; [split; [discriminate | tauto] | discriminate]).
    + apply sliceFrom_None in Hs. change (String.length eventPrefix) with 20%nat in Hs.
      unfold mret, M_ret. cbn [fst snd]. split; [tauto | reflexivity].
  - unfold returned, mbind, M_bind, mret, M_ret. cbn [fst snd].
    split; [split; [discriminate | tauto] | discriminate].
Qed.

(** X3. The by-id handler never looks at the 20 bytes it skips: a GET
    request whose path is any 20 bytes followed by [id] is handled as the
    request for [id] on the route itself. *)
Theorem eventByIDHandler_ignores_skipped_bytes (w : ResponseWriter) (pre id : string)
    (s : State) :
  String.length pre = 20%nat ->
  eventByIDHandler clock origin w (getRequest (pre +:+ id)) s =
  eventByIDHandler clock origin w (getRequest (eventPrefix +:+ id)) s.
Proof.
  intros Hlen.
  assert (H1 : sliceFrom (pre +:+ id) (String.length eventPrefix) = Some id).
  { change (String.length eventPrefix) with 20%nat. rewrite <- Hlen.
    apply sliceFrom_append. }
  assert (H2 : sliceFrom (eventPrefix +:+ id) (String.length eventPrefix) = Some id).
  { apply sliceFrom_append. }
  unfold eventByIDHandler, getRequest. cbn [Method Path].
  rewrite H1, H2. reflexivity.
Qed.

(** X4. The cache keys of the resources never collide: different
    identifiers give different by-id keys, and no by-id key, for whatever
    identifier, is the key of the events list or of the genres list, which
    differ from each other. *)
Theorem upstream_keys_are_distinct :
  (forall id1 id2, eventURL id1 = eventURL id2 -> id1 = id2) /\
  (forall id, eventURL id <> eventsURL /\ eventURL id <> genresURL) /\
  eventsURL <> genresURL.
Proof.
  unfold eventURL, eventsURL, genresURL. split; [| split].
  - intros id1 id2 H. apply append_inj_l in H. apply append_inj_l in H. exact H.
  - intros id. split; intros H; apply append_inj_l in H; simpl in H; discriminate.
  - intros H. apply append_inj_l in H. discriminate.
Qed.

(** The three ways through [serveCached], with the state each leaves. *)
Lemma serveCached_cases (w : ResponseWriter) (u : string) (s : State) :
  (exists e,
      cache s !! u = Some e /\ Before (clock (ticks s)) (until e) = true /\
      serve w u s =
        (answered w HIT (data e),
         {| cache := cache s; ticks := S (ticks s); calls := calls s;
            trace := trace s ++
              [EvRLock; EvNow (clock (ticks s)); EvWrite (data e); EvRUnlock] |})) \/
  (exists k,
      fresh clock s u = false /\ delivery origin (calls s) u = inl k /\
      serve w u s =
        (failedWith w k,
         {| cache := cache s; ticks := storeTick s u; calls := S (calls s);
            trace := trace s ++
              EvRLock :: probe clock s u ++ EvRUnlock :: EvGet u :: failureTrace k |})) \/
  (exists b,
      fresh clock s u = false /\ delivery origin (calls s) u = inr b /\
      serve w u s =
        (answered w MISS b,
         {| cache := <[u := {| data := b; until := Add (clock (storeTick s u)) cacheTTL |}]>
                       (cache s);
            ticks := S (storeTick s u); calls := S (calls s);
            trace := trace s ++
              EvRLock :: probe clock s u ++
              [EvRUnlock; EvGet u; EvReadAll false; EvLock; EvNow (clock (storeTick s u));
               EvUnlock; EvWrite b; EvClose] |})).
Proof.
  destruct (fresh clock s u) eqn:Hf.
  - left. apply fresh_hit in Hf as (e & He & Hb). exists e.
    split; [exact He |]. split; [exact Hb |]. apply serveCached_hit; assumption.
  - right. destruct (delivery origin (calls s) u) as [k | b] eqn:Hd.
    + left. exists k. split; [reflexivity |]. split; [reflexivity |].
      apply serveCached_miss_failed; assumption.
    + right. exists b. split; [reflexivity |]. split; [reflexivity |].
      apply serveCached_miss_stored; assumption.
Qed.

Lemma storeTick_ge (s : State) (u : string) : (ticks s <= storeTick s u)%nat.
Proof. unfold storeTick. destruct (cache s !! u); lia. Qed.

(** X5. A request touches the cache at its own key only, and nothing is
    ever evicted: the entries under all other keys are as before, every
    key that had an entry still has one, and the cache after the request
    is the cache before it or that cache with a new entry under the key. *)
Theorem serveCached_touches_only_its_key (w : ResponseWriter) (u : string) (s : State) :
  let s' := (serve w u s).2 in
  (forall key, key <> u -> cache s' !! key = cache s !! key) /\
  (forall key, is_Some (cache s !! key) -> is_Some (cache s' !! key)) /\
  (cache s' = cache s \/ exists e, cache s' = <[u := e]> (cache s)).
Proof.
  intros s'. subst s'.
  destruct (serveCached_cases w u s)
    as [(e & _ & _ & ->) | [(k & _ & _ & ->) | (b & _ & _ & ->)]]; cbn [snd cache].
  - split; [reflexivity |]. split; [tauto | left; reflexivity].
  - split; [reflexivity |]. split; [tauto | left; reflexivity].
  - split; [| split].
    + intros key Hne. apply lookup_insert_ne. congruence.
    + intros key Hk. destruct (decide (key = u)) as [-> | Hne].
      * rewrite lookup_insert_eq. eauto.
      * rewrite lookup_insert_ne by congruence. exact Hk.
    + right. eexists. reflexivity.
Qed.

Lemma verified_step (w : ResponseWriter) (u : string) (s : State) :
  verified clock origin s -> verified clock origin (serve w u s).2.
Proof.
  intros Hv.
  destruct (serveCached_cases w u s)
    as [(e & _ & _ & ->) | [(k & _ & _ & ->) | (b & _ & Hd & ->)]]; cbn [snd].
  - intros key e' He'. cbn [cache] in He'.
    destruct (Hv key e' He') as (n & m & Hn & Hm & H1 & H2).
    exists n, m. cbn [calls ticks]. repeat split; auto; lia.
  - intros key e' He'. cbn [cache] in He'.
    destruct (Hv key e' He') as (n & m & Hn & Hm & H1 & H2).
    pose proof (storeTick_ge s u).
    exists n, m. cbn [calls ticks]. repeat split; auto; lia.
  - intros key e' He'. cbn [cache] in He'. cbn [calls ticks].
    pose proof (storeTick_ge s u).
    destruct (decide (key = u)) as [-> | Hne].
    + rewrite lookup_insert_eq in He'. injection He' as <-.
      exists (calls s), (storeTick s u). cbn [data until]. unfold Add.
      repeat split; auto; lia.
    + rewrite lookup_insert_ne in He' by congruence.
      destruct (Hv key e' He') as (n & m & Hn & Hm & H1 & H2).
      exists n, m. repeat split; auto; lia.
Qed.

Lemma serveAll_cons (u : string) (keys : list string) (s : State) :
  serveAll clock origin (u :: keys) s =
    ((serve newWriter u s).1 :: (serveAll clock origin keys (serve newWriter u s).2).1,
     (serveAll clock origin keys (serve newWriter u s).2).2).
Proof. reflexivity. Qed.

(** X6. Whatever requests are served, in whatever order, and whatever the
    origin and the clock do, the cache only ever holds bodies that the
    transport delivered for that very key, complete and with status 200,
    each expiring [cacheTTL] after a clock reading taken earlier: no
    failure answer, partial body or body of another key gets cached. *)
Theorem cache_holds_only_delivered_bodies (keys : list string) (s : State) :
  verified clock origin s ->
  verified clock origin (serveAll clock origin keys s).2.
Proof.
  revert s. induction keys as [| u keys IH]; intros s Hv.
  - exact Hv.
  - rewrite serveAll_cons. cbn [snd]. apply IH, verified_step, Hv.
Qed.

(** The headers that an answer leaves alone reach the client as the
    handler found them. *)
Lemma sentHeader_answered_other (w : ResponseWriter) (src : Source) (p : bytes)
    (k : string) :
  wrote w = None -> k <> "Content-Type" -> k <> "X-Cache" ->
  sentHeader (answered w src p) k = header w !! k.
Proof.
  intros Hw H1 H2. unfold sentHeader, answered, putBody, putHeader. simpl.
  rewrite Hw. simpl. rewrite !lookup_insert_ne by congruence. reflexivity.
Qed.

Lemma sentHeader_refused_other (w : ResponseWriter) (msg : string) (code : Z)
    (k : string) :
  wrote w = None -> k <> "Content-Type" -> k <> "X-Content-Type-Options" ->
  sentHeader (refused w msg code) k = header w !! k.
Proof.
  intros Hw H1 H2. unfold sentHeader, refused, putBody, putHeader. simpl.
  rewrite Hw. simpl. rewrite !lookup_insert_ne by congruence. reflexivity.
Qed.

(** X7. On a response not yet started and without an X-Cache header, what
    the client receives tells how the request was served.  Status 200 with
    X-Cache HIT: the entry's data, and no transport call was made.  Status
    200 with X-Cache MISS: the body just delivered, after one transport
    call.  Status 502 as plain text without X-Cache: the text of the
    failure and a newline, after one transport call.  There is no other
    outcome. *)
Theorem response_tells_the_source (w : ResponseWriter) (u : string) (s : State) :
  wrote w = None ->
  header w !! "X-Cache" = None ->
  let r := serve w u s in
  (exists e, cache s !! u = Some e /\ clock (ticks s) < until e /\
             sentStatus r.1 = Some 200 /\
             sentHeader r.1 "Content-Type" = Some ["application/json"] /\
             sentHeader r.1 "X-Cache" = Some ["HIT"] /\
             output r.1 = output w ++ data e /\
             calls r.2 = calls s) \/
  (exists b, fresh clock s u = false /\ delivery origin (calls s) u = inr b /\
             sentStatus r.1 = Some 200 /\
             sentHeader r.1 "Content-Type" = Some ["application/json"] /\
             sentHeader r.1 "X-Cache" = Some ["MISS"] /\
             output r.1 = output w ++ b /\
             calls r.2 = S (calls s)) \/
  (exists k, fresh clock s u = false /\ delivery origin (calls s) u = inl k /\
             sentStatus r.1 = Some 502 /\
             sentHeader r.1 "Content-Type" = Some ["text/plain; charset=utf-8"] /\
             sentHeader r.1 "X-Cache" = None /\
             output r.1 = output w ++ bytesOf (errorText k +:+ newline) /\
             calls r.2 = S (calls s)).
Proof.
  intros Hw Hx r. subst r.
  destruct (serveCached_cases w u s)
    as [(e & He & Hb & ->) | [(k & Hf & Hd & ->) | (b & Hf & Hd & ->)]]; cbn [fst snd calls].
  - left. exists e. apply Before_lt in Hb.
    destruct (answered_observed w HIT (data e) Hw) as (H1 & H2 & H3 & H4).
    repeat split; assumption.
  - right. right. exists k.
    destruct (refused_observed w (errorText k) StatusBadGateway Hw) as (H1 & H2 & H3 & H4).
    unfold failedWith. rewrite H3. repeat split; assumption.
  - right. left. exists b.
    destruct (answered_observed w MISS b Hw) as (H1 & H2 & H3 & H4).
    repeat split; assumption.
Qed.

Lemma withCORSHeaders_sent (w w' : ResponseWriter) :
  wrote w = None ->
  (forall k, k <> "Content-Type" -> k <> "X-Cache" -> k <> "X-Content-Type-Options" ->
             sentHeader w' k = header (withCORSHeaders w) !! k) ->
  corsSent w'.
Proof.
  intros Hw H. unfold corsSent.
  rewrite !H by discriminate. unfold withCORSHeaders, Header_Set. simpl.
  rewrite lookup_insert_ne, lookup_insert_ne, lookup_insert_eq by discriminate.
  rewrite lookup_insert_ne, lookup_insert_eq by discriminate.
  rewrite lookup_insert_eq. auto.
Qed.

Lemma serveCached_keeps_headers (w : ResponseWriter) (u : string) (s : State) (k : string) :
  wrote w = None ->
  k <> "Content-Type" -> k <> "X-Cache" -> k <> "X-Content-Type-Options" ->
  sentHeader (serve w u s).1 k = header w !! k.
Proof.
  intros Hw H1 H2 H3.
  destruct (serveCached_cases w u s)
    as [(e & _ & _ & ->) | [(f & _ & _ & ->) | (b & _ & _ & ->)]]; cbn [fst].
  - apply sentHeader_answered_other; assumption.
  - apply sentHeader_refused_other; assumption.
  - apply sentHeader_answered_other; assumption.
Qed.

Lemma returned_result (m : M ResponseWriter) (s : State) :
  returned m s = (Some (m s).1, (m s).2).
Proof. reflexivity. Qed.

Lemma http_Error_result (w : ResponseWriter) (msg : string) (code : Z) (s : State) :
  (http_Error w msg code s).1 = refused w msg code.
Proof. reflexivity. Qed.

(** X8. Behind [withCORS], every response that the static handlers and the
    by-id handler leave on a writer not yet started carries the three
    cross-origin headers to the client: on a hit, a miss, each upstream
    failure, a refused method, a refused identifier and the preflight
    answer alike. *)
Theorem cors_headers_on_every_response (w : ResponseWriter) (r : Request) (s : State) :
  wrote w = None ->
  (forall path w',
      (withCORS (proxyStatic clock origin path) w r s).1 = Some w' -> corsSent w') /\
  (forall w',
      (withCORS (eventByIDHandler clock origin) w r s).1 = Some w' -> corsSent w').
Proof.
  intros Hw.
  assert (Hw3 : wrote (withCORSHeaders w) = None) by exact Hw.
  assert (Hopt : forall w', Some (putHeader (withCORSHeaders w) StatusNoContent) = Some w' ->
                            corsSent w').
  { intros w' [= <-]. apply (withCORSHeaders_sent w); [exact Hw |].
    intros k _ _ _. unfold sentHeader, putHeader. rewrite Hw3. reflexivity. }
  assert (Hrefused : forall msg code w',
             Some (refused (withCORSHeaders w) msg code) = Some w' -> corsSent w').
  { intros msg code w' [= <-]. apply (withCORSHeaders_sent w); [exact Hw |].
    intros k H1 _ H3. apply sentHeader_refused_other; assumption. }
  assert (Hserved : forall u w',
             Some (serve (withCORSHeaders w) u s).1 = Some w' -> corsSent w').
  { intros u w' [= <-]. apply (withCORSHeaders_sent w); [exact Hw |].
    intros k H1 H2 H3. apply serveCached_keeps_headers; assumption. }
  split.
  - intros path w'. unfold withCORS. fold (withCORSHeaders w).
    destruct (String.eqb (Method r) MethodOptions); [apply Hopt |].
    unfold proxyStatic.
    destruct (negb (String.eqb (Method r) MethodGet)); rewrite returned_result; cbn [fst].
    + rewrite http_Error_result. apply Hrefused.
    + apply Hserved.
  - intros w'. unfold withCORS. fold (withCORSHeaders w).
    destruct (String.eqb (Method r) MethodOptions); [apply Hopt |].
    unfold eventByIDHandler.
    destruct (negb (String.eqb (Method r) MethodGet)).
    + rewrite returned_result; cbn [fst]. rewrite http_Error_result. apply Hrefused.
    + destruct (sliceFrom (Path r) (String.length eventPrefix)) as [id |];
        [| discriminate].
      destruct (negb (MatchString eventIDRegex id)); rewrite returned_result; cbn [fst].
      * rewrite http_Error_result. apply Hrefused.
      * apply Hserved.
Qed.

(** X9. A preflight request (method OPTIONS) is answered by [withCORS]
    itself, for whatever handler it wraps: status 204 with the three
    cross-origin headers and no body, and the wrapped handler does not
    run, so the cache, the clock and the transport are untouched. *)
Theorem preflight_skips_the_handler (next : Handler) (w : ResponseWriter) (path : string)
    (s : State) :
  let r := withCORS next w {| Method := MethodOptions; Path := path |} s in
  r.1 = Some (putHeader (withCORSHeaders w) StatusNoContent) /\
  output (putHeader (withCORSHeaders w) StatusNoContent) = output w /\
  r.2 = {| cache := cache s; ticks := ticks s; calls := calls s;
           trace := trace s ++ [EvWriteHeader StatusNoContent] |}.
Proof.
  intros r. subst r. unfold withCORS. cbn [Method].
  change (String.eqb MethodOptions MethodOptions) with true. cbv iota.
  rewrite returned_result. unfold WriteHeader, emit, mbind, M_bind, mret, M_ret.
  cbn [fst snd]. split; [reflexivity |]. split; [| reflexivity].
  rewrite output_putHeader. reflexivity.
Qed.

(** X11. While an entry is fresh the origin is shielded: [n] requests for
    its key in a row, each of whose clock readings is before the entry's
    expiry, are all answered with the entry's data marked HIT, make no
    transport call and leave the cache as it is (in particular a hit does
    not prolong the entry). *)
Theorem fresh_entry_shields_origin (u : string) (n : nat) (s : State) (e : cacheEntry) :
  cache s !! u = Some e ->
  (forall j, (j < n)%nat -> clock (ticks s + j) < until e) ->
  let r := serveAll clock origin (replicate n u) s in
  r.1 = replicate n (answered newWriter HIT (data e)) /\
  cache r.2 = cache s /\
  calls r.2 = calls s /\
  ticks r.2 = (ticks s + n)%nat.
Proof.
  revert s. induction n as [| n IH]; intros s He Hlt r; subst r.
  - simpl. unfold mret, M_ret. simpl. repeat split. lia.
  - cbn [replicate]. rewrite serveAll_cons.
    assert (Hb : Before (clock (ticks s)) (until e) = true).
    { apply Before_lt. replace (ticks s) with (ticks s + 0)%nat by lia.
      apply Hlt. lia. }
    rewrite (serveCached_hit clock origin newWriter u s e He Hb). cbn [fst snd].
    set (s1 := {| cache := cache s; ticks := S (ticks s); calls := calls s; trace := _ |}).
    destruct (IH s1) as (H1 & H2 & H3 & H4).
    + exact He.
    + intros j Hj. replace (ticks s1 + j)%nat with (ticks s + S j)%nat
        by (subst s1; simpl; lia).
      apply Hlt. lia.
    + rewrite H1, H2, H3, H4. subst s1. simpl. repeat split. lia.
Qed.

(** X13. The response body is closed exactly when there is one: a run of
    [serveCached] that got a response from the transport, whatever its
    status and whether or not the body could be read, ends with the
    deferred close, once; a hit and a failed transport call close
    nothing. *)
Theorem body_closed_iff_response_received (w : ResponseWriter) (u : string) (s : State) :
  let evs := since s (serve w u s).2 in
  if fresh clock s u
  then ~ In EvClose evs
  else match origin (calls s) u with
       | GetOk _ => exists pre, evs = pre ++ [EvClose] /\ ~ In EvClose pre
       | GetErr => ~ In EvClose evs
       end.
Proof.
  intros evs. subst evs.
  assert (Hp : forall tl, In EvClose (probe clock s u ++ tl) -> In EvClose tl).
  { intros tl H. apply in_app_or in H as [H | H]; [| exact H].
    unfold probe in H. destruct (cache s !! u); simpl in H; intuition discriminate. }
  destruct (serveCached_cases w u s)
    as [(e & He & Hb & ->) | [(k & Hf & Hd & ->) | (b & Hf & Hd & ->)]]; cbn [snd].
  - assert (Hf : fresh clock s u = true) by (unfold fresh; rewrite He; exact Hb).
    rewrite Hf. erewrite since_app; [| reflexivity].
    simpl. intuition discriminate.
  - rewrite Hf. erewrite since_app; [| reflexivity].
    unfold delivery in Hd. destruct (origin (calls s) u) as [resp |].
    + destruct (negb (StatusCode resp =? StatusOK)).
      * injection Hd as <-.
        exists (EvRLock :: probe clock s u ++
                [EvRUnlock; EvGet u; EvWriteHeader StatusBadGateway;
                 EvWrite (bytesOf (errorText UpstreamError +:+ newline))]).
        split; [simpl; rewrite <- app_assoc; reflexivity |].
        intros [H | H]; [discriminate |]. apply Hp in H. simpl in H. intuition discriminate.
      * destruct (broken (Body resp)); [| discriminate]. injection Hd as <-.
        exists (EvRLock :: probe clock s u ++
                [EvRUnlock; EvGet u; EvReadAll true; EvWriteHeader StatusBadGateway;
                 EvWrite (bytesOf (errorText UpstreamReadFailure +:+ newline))]).
        split; [simpl; rewrite <- app_assoc; reflexivity |].
        intros [H | H]; [discriminate |]. apply Hp in H. simpl in H. intuition discriminate.
    + injection Hd as <-.
      intros [H | H]; [discriminate |]. apply Hp in H. simpl in H. intuition discriminate.
  - rewrite Hf. erewrite since_app; [| reflexivity].
    unfold delivery in Hd. destruct (origin (calls s) u) as [resp |]; [| discriminate].
    exists (EvRLock :: probe clock s u ++
            [EvRUnlock; EvGet u; EvReadAll false; EvLock; EvNow (clock (storeTick s u));
             EvUnlock; EvWrite b]).
    split; [simpl; rewrite <- app_assoc; reflexivity |].
    intros [H | H]; [discriminate |]. apply Hp in H. simpl in H. intuition discriminate.
Qed.

(** The answer to one request on a writer of its own, and its cost. *)
Lemma serveCached_answer_and_cost (u : string) (s : State) :
  wellAnswered (serve newWriter u s).1 /\
  calls (serve newWriter u s).2 =
    (calls s + if servedFromCache (serve newWriter u s).1 then 0 else 1)%nat.
Proof.
  assert (Hw : wrote newWriter = None) by reflexivity.
  unfold wellAnswered, servedFromCache.
  destruct (serveCached_cases newWriter u s)
    as [(e & _ & _ & ->) | [(k & _ & _ & ->) | (b & _ & _ & ->)]]; cbn [fst snd calls].
  - destruct (answered_observed newWriter HIT (data e) Hw) as (H1 & _ & H3 & _).
    rewrite H1, H3. simpl sourceText. split; [left; auto |].
    rewrite bool_decide_eq_true_2 by reflexivity. lia.
  - destruct (refused_observed newWriter (errorText k) StatusBadGateway Hw)
      as (H1 & _ & H3 & _).
    unfold failedWith. rewrite H1, H3.
    change (header newWriter !! "X-Cache") with (@None (list string)).
    split; [right; auto |].
    rewrite bool_decide_eq_false_2 by discriminate. lia.
  - destruct (answered_observed newWriter MISS b Hw) as (H1 & _ & H3 & _).
    rewrite H1, H3. simpl sourceText. split; [left; auto |].
    rewrite bool_decide_eq_false_2 by discriminate. lia.
Qed.

(** X14. No request is dropped and none is retried: every request of a
    sequence gets an answer of its own (status 200 marked HIT or MISS, or
    status 502 without the mark), and the transport calls made are exactly
    as many as the answers not served from the cache, so a miss costs one
    call, whether the fetch fails or not, and a hit costs none. *)
Theorem every_request_answered_one_call_per_miss (keys : list string) (s : State) :
  let r := serveAll clock origin keys s in
  length r.1 = length keys /\
  Forall wellAnswered r.1 /\
  calls r.2 =
    (calls s + length (List.filter (fun w => negb (servedFromCache w)) r.1))%nat.
Proof.
  intros r. subst r. revert s. induction keys as [| u keys IH]; intros s.
  - cbn [serveAll]. unfold mret, M_ret. cbn [fst snd length List.filter].
    split; [reflexivity |]. split; [constructor | lia].
  - rewrite serveAll_cons. cbn [fst snd length List.filter].
    destruct (IH (serve newWriter u s).2) as (H1 & H2 & H3).
    destruct (serveCached_answer_and_cost u s) as (H4 & H5).
    split; [rewrite H1; reflexivity |]. split; [constructor; assumption |].
    rewrite H3, H5.
    destruct (servedFromCache (serve newWriter u s).1); cbn [negb length]; lia.
Qed.

End Handlers.

(** ** The theorems on the handlers that have hypotheses, at concrete inputs *)

Lemma other_methods_are_refused_witness :
  proxyStatic demoClock demoOrigin "/genres" newWriter
    {| Method := "POST"; Path := "/api/calendar/genres" |} startState =
  (Some (refused newWriter "Method not allowed" StatusMethodNotAllowed),
   {| cache := empty; ticks := 0; calls := 0;
      trace := refusal "Method not allowed" StatusMethodNotAllowed |}).
Proof.
  pose proof (other_methods_are_refused demoClock demoOrigin "/genres" newWriter
                {| Method := "POST"; Path := "/api/calendar/genres" |} startState) as H.
  cbv zeta in H. apply H. discriminate.
Defined.

Lemma eventByIDHandler_ignores_skipped_bytes_witness :
  eventByIDHandler demoClock demoOrigin newWriter
    (getRequest ("/API/CALENDAR/EVENT/" +:+ "7")) startState =
  eventByIDHandler demoClock demoOrigin newWriter
    (getRequest (eventPrefix +:+ "7")) startState.
Proof.
  exact (eventByIDHandler_ignores_skipped_bytes demoClock demoOrigin newWriter
           "/API/CALENDAR/EVENT/" "7" startState eq_refl).
Defined.

Lemma verified_startState : verified demoClock demoOrigin startState.
Proof. intros key e H. unfold startState in H. simpl in H. rewrite lookup_empty in H. discriminate. Qed.

Lemma cache_holds_only_delivered_bodies_witness :
  verified demoClock demoOrigin startState /\
  verified demoClock demoOrigin
    (serveAll demoClock demoOrigin ["k"; "k"; "j"] startState).2.
Proof.
  split; [exact verified_startState |].
  exact (cache_holds_only_delivered_bodies demoClock demoOrigin ["k"; "k"; "j"] startState
           verified_startState).
Defined.

Lemma response_tells_the_source_witness :
  wrote newWriter = None /\
  header newWriter !! "X-Cache" = None /\
  sentHeader (serveCached demoClock demoOrigin newWriter "k" startState).1 "X-Cache" =
    Some ["MISS"].
Proof.
  split; [reflexivity |]. split; [reflexivity |].
  pose proof (response_tells_the_source demoClock demoOrigin newWriter "k" startState
                eq_refl eq_refl) as H.
  cbv zeta in H.
  destruct H as [(e & He & _) | [(b & _ & _ & _ & _ & H & _) | (k & _ & Hd & _)]].
  - discriminate He.
  - exact H.
  - discriminate Hd.
Defined.

Lemma cors_headers_on_every_response_witness :
  wrote newWriter = None /\
  corsSent (refused (withCORSHeaders newWriter) "Invalid event id" StatusBadRequest).
Proof.
  split; [reflexivity |].
  assert (H : (withCORS (eventByIDHandler demoClock demoOrigin) newWriter
                 (getRequest "/api/calendar/event/abc") startState).1 =
              Some (refused (withCORSHeaders newWriter) "Invalid event id" StatusBadRequest))
    by (vm_compute; reflexivity).
  exact (proj2 (cors_headers_on_every_response demoClock demoOrigin newWriter
                  (getRequest "/api/calendar/event/abc") startState eq_refl) _ H).
Defined.

Lemma stored_then_served_witness :
  fresh demoClock startState "k" = false /\
  delivery demoOrigin (calls startState) "k" = inr noEvents /\
  (serveCached demoClock demoOrigin newWriter "k"
     (serveCached demoClock demoOrigin newWriter "k" startState).2).1 =
    answered newWriter HIT noEvents.
Proof.
  split; [reflexivity |]. split; [reflexivity |].
  pose proof (stored_then_served demoClock demoOrigin newWriter newWriter "k" startState
                noEvents eq_refl eq_refl) as H.
  cbv zeta in H. destruct H as [H _]. apply H. vm_compute. reflexivity.
Defined.

Lemma fresh_entry_shields_origin_witness :
  cache (holding "k" genres (7 * Minute) 1 0) !! "k" =
    Some {| data := genres; until := 7 * Minute |} /\
  calls (serveAll demoClock demoOrigin (replicate 3 "k")
           (holding "k" genres (7 * Minute) 1 0)).2 = 0%nat.
Proof.
  assert (He : cache (holding "k" genres (7 * Minute) 1 0) !! "k" =
               Some {| data := genres; until := 7 * Minute |}) by (vm_compute; reflexivity).
  split; [exact He |].
  pose proof (fresh_entry_shields_origin demoClock demoOrigin "k" 3
                (holding "k" genres (7 * Minute) 1 0)
                {| data := genres; until := 7 * Minute |} He) as H.
  cbv zeta in H. apply H.
  intros j Hj. destruct j as [| [| [| j]]]; [vm_compute; reflexivity .. | lia].
Defined.
